(** * Shallow embedding of ag-grid's infinite row model cache

    Source: src/ts/rowModels/infinite/infiniteCache.ts (class InfiniteCache).

    The class extends RowNodeCache and manipulates InfiniteBlock objects;
    neither of those files is part of this repository snapshot, so the
    members of theirs that InfiniteCache calls are modelled from the spec
    (each such definition says so in its doc comment).

    Modelling choices:
    - JavaScript objects that are shared (the blocks, referenced both from
      the cache's block map and from a pending load) live in a heap
      [heap : gmap nat InfiniteBlock]; the block map [blocks] maps a block
      number to a heap reference, as an association list in insertion
      order (the order the spec gives for in-order iteration).
    - A row node is identified by a number; [Blank] is the blank
      placeholder node.  [getRow] returns [option Slot]: [None] is the
      JavaScript [null] (or [undefined]).
    - Stateful code runs in a state monad over [InfiniteCache].
    - [accesses] is a ghost log (not a field of the TypeScript class) that
      records every read and write of a row slot, so that the order of the
      reads and writes of an operation can be stated. *)

From Stdlib Require Import ZArith List Lia Sorting.Sorted Permutation.
From stdpp Require Import base gmap list.

Import ListNotations.

(** ** Data model *)

Inductive Slot := Blank | Node (id : nat).

Inductive BlockState := NotLoaded | Loading | Loaded.

(** The only listener the cache registers on a block: [this.onPageLoaded]. *)
Inductive Listener := OnPageLoaded.

(** Events dispatched on the event service. *)
Inductive Event :=
| ModelUpdated
| ItemsAdded (nodes : list nat).

(** Ghost log entries: a slot read, a slot overwritten by an existing or a
    blank node, a slot given a freshly created node for a data item. *)
Inductive Access :=
| TRead (pos : Z)
| TWrite (pos : Z)
| TNew (pos : Z) (item : nat).

Record InfiniteBlock := mkBlock {
  pageNumber : Z;
  bstate : BlockState;
  dirty : bool;
  rowNodes : list Slot;
  lastAccessed : nat;
  listeners : list Listener
}.

Record CacheParams := mkParams {
  pageSize : Z;
  maxBlocksInCache : option Z   (* None: undefined / null *)
}.

Record InfiniteCache := mkCache {
  cacheParams : CacheParams;
  active : bool;
  blocks : list (Z * nat);
  heap : gmap nat InfiniteBlock;
  nextObj : nat;
  lastAccessedSequence : nat;
  nextNodeId : nat;
  nodeData : gmap nat nat;
  virtualRowCount : Z;
  maxRowFound : bool;
  loadsInFlight : nat;
  events : list Event;
  loadCallbacks : list nat;
  accesses : list Access
}.

Definition ps_of (s : InfiniteCache) : Z := pageSize (cacheParams s).

(** Field updates. *)
Definition set_blocks (s : InfiniteCache) v : InfiniteCache :=
  mkCache (cacheParams s) (active s) v (heap s) (nextObj s) (lastAccessedSequence s)
    (nextNodeId s) (nodeData s) (virtualRowCount s) (maxRowFound s) (loadsInFlight s)
    (events s) (loadCallbacks s) (accesses s).
Definition set_heap (s : InfiniteCache) v : InfiniteCache :=
  mkCache (cacheParams s) (active s) (blocks s) v (nextObj s) (lastAccessedSequence s)
    (nextNodeId s) (nodeData s) (virtualRowCount s) (maxRowFound s) (loadsInFlight s)
    (events s) (loadCallbacks s) (accesses s).
Definition set_nextObj (s : InfiniteCache) v : InfiniteCache :=
  mkCache (cacheParams s) (active s) (blocks s) (heap s) v (lastAccessedSequence s)
    (nextNodeId s) (nodeData s) (virtualRowCount s) (maxRowFound s) (loadsInFlight s)
    (events s) (loadCallbacks s) (accesses s).
Definition set_sequence (s : InfiniteCache) v : InfiniteCache :=
  mkCache (cacheParams s) (active s) (blocks s) (heap s) (nextObj s) v
    (nextNodeId s) (nodeData s) (virtualRowCount s) (maxRowFound s) (loadsInFlight s)
    (events s) (loadCallbacks s) (accesses s).
Definition set_nodes (s : InfiniteCache) id data : InfiniteCache :=
  mkCache (cacheParams s) (active s) (blocks s) (heap s) (nextObj s) (lastAccessedSequence s)
    id data (virtualRowCount s) (maxRowFound s) (loadsInFlight s)
    (events s) (loadCallbacks s) (accesses s).
Definition set_virtualRowCount (s : InfiniteCache) v : InfiniteCache :=
  mkCache (cacheParams s) (active s) (blocks s) (heap s) (nextObj s) (lastAccessedSequence s)
    (nextNodeId s) (nodeData s) v (maxRowFound s) (loadsInFlight s)
    (events s) (loadCallbacks s) (accesses s).
Definition set_loadsInFlight (s : InfiniteCache) v : InfiniteCache :=
  mkCache (cacheParams s) (active s) (blocks s) (heap s) (nextObj s) (lastAccessedSequence s)
    (nextNodeId s) (nodeData s) (virtualRowCount s) (maxRowFound s) v
    (events s) (loadCallbacks s) (accesses s).
Definition set_events (s : InfiniteCache) v : InfiniteCache :=
  mkCache (cacheParams s) (active s) (blocks s) (heap s) (nextObj s) (lastAccessedSequence s)
    (nextNodeId s) (nodeData s) (virtualRowCount s) (maxRowFound s) (loadsInFlight s)
    v (loadCallbacks s) (accesses s).
Definition set_loadCallbacks (s : InfiniteCache) v : InfiniteCache :=
  mkCache (cacheParams s) (active s) (blocks s) (heap s) (nextObj s) (lastAccessedSequence s)
    (nextNodeId s) (nodeData s) (virtualRowCount s) (maxRowFound s) (loadsInFlight s)
    (events s) v (accesses s).
Definition set_accesses (s : InfiniteCache) v : InfiniteCache :=
  mkCache (cacheParams s) (active s) (blocks s) (heap s) (nextObj s) (lastAccessedSequence s)
    (nextNodeId s) (nodeData s) (virtualRowCount s) (maxRowFound s) (loadsInFlight s)
    (events s) (loadCallbacks s) v.

(** ** The state monad *)

Definition M (A : Type) : Type := InfiniteCache -> A * InfiniteCache.

Definition ret {A} (a : A) : M A := fun s => (a, s).
Definition bind {A B} (m : M A) (k : A -> M B) : M B :=
  fun s => let (a, s') := m s in k a s'.
Definition gets {A} (f : InfiniteCache -> A) : M A := fun s => (f s, s).
Definition modify (f : InfiniteCache -> InfiniteCache) : M unit := fun s => (tt, f s).
Definition exec {A} (m : M A) (s : InfiniteCache) : InfiniteCache := snd (m s).

Notation "'let*' x ':=' m 'in' k" := (bind m (fun x => k))
  (at level 200, x name, m at level 100, k at level 200).

Fixpoint mapM_ {A} (f : A -> M unit) (l : list A) : M unit :=
  match l with
  | [] => ret tt
  | x :: l' => let* _ := f x in mapM_ f l'
  end.

(** Runs [f] on every element and concatenates the lists it returns
    (the TypeScript code pushes each callback's nodes onto one array). *)
Fixpoint concatMapM {A B} (f : A -> M (list B)) (l : list A) : M (list B) :=
  match l with
  | [] => ret []
  | x :: l' => let* r := f x in let* rs := concatMapM f l' in ret (r ++ rs)
  end.

(** ** InfiniteBlock (not in this snapshot) *)

(** Modelled from the spec: InfiniteBlock's [startRow = blockNumber * pageSize]. *)
Definition getStartRow (ps : Z) (b : InfiniteBlock) : Z := (pageNumber b * ps)%Z.

(** Modelled from the spec: InfiniteBlock's [endRow = startRow + pageSize]
    (exclusive). *)
Definition getEndRow (ps : Z) (b : InfiniteBlock) : Z := (getStartRow ps b + ps)%Z.

(** Modelled from the spec: a new InfiniteBlock is [NotLoaded], not dirty,
    with [pageSize] blank slots and no listener. *)
Definition newInfiniteBlock (blockNumber ps : Z) : InfiniteBlock :=
  mkBlock blockNumber NotLoaded false (repeat Blank (Z.to_nat ps)) 0 [].

(** The slot of [b] holding absolute row [r]; [None] is JavaScript's
    [undefined] for an index outside the array. *)
Definition slotAt (ps : Z) (b : InfiniteBlock) (r : Z) : option Slot :=
  if (r - getStartRow ps b <? 0)%Z then None
  else rowNodes b !! Z.to_nat (r - getStartRow ps b).

Definition set_slot (ps : Z) (b : InfiniteBlock) (r : Z) (x : Slot) : InfiniteBlock :=
  mkBlock (pageNumber b) (bstate b) (dirty b)
    (<[Z.to_nat (r - getStartRow ps b) := x]> (rowNodes b)) (lastAccessed b) (listeners b).

Definition set_lastAccessed (b : InfiniteBlock) (n : nat) : InfiniteBlock :=
  mkBlock (pageNumber b) (bstate b) (dirty b) (rowNodes b) n (listeners b).

Definition set_dirty (b : InfiniteBlock) : InfiniteBlock :=
  mkBlock (pageNumber b) (bstate b) true (rowNodes b) (lastAccessed b) (listeners b).

Definition add_listener (b : InfiniteBlock) (l : Listener) : InfiniteBlock :=
  mkBlock (pageNumber b) (bstate b) (dirty b) (rowNodes b) (lastAccessed b)
    (listeners b ++ [l]).

Definition set_bstate (b : InfiniteBlock) (st : BlockState) : InfiniteBlock :=
  mkBlock (pageNumber b) st (dirty b) (rowNodes b) (lastAccessed b) (listeners b).

(** Applies [f] to the block object [o]; nothing if [o] is not allocated. *)
Definition modifyBlock (o : nat) (f : InfiniteBlock -> InfiniteBlock) : M unit :=
  modify (fun s => match heap s !! o with
                   | Some b => set_heap s (<[o := f b]> (heap s))
                   | None => s
                   end).

Definition logAccess (a : Access) : M unit :=
  modify (fun s => set_accesses s (accesses s ++ [a])).

(** Modelled from the spec: [block.getRow(rowIndex)] bumps the block's
    [lastAccessed] stamp from the shared sequence and returns the node in
    the slot of [rowIndex]. *)
Definition blockGetRow (o : nat) (rowIndex : Z) : M (option Slot) :=
  fun s =>
    match heap s !! o with
    | None => (None, s)
    | Some b =>
        let s1 := set_heap s (<[o := set_lastAccessed b (lastAccessedSequence s)]> (heap s)) in
        let s2 := set_sequence s1 (S (lastAccessedSequence s)) in
        (slotAt (ps_of s) b rowIndex, set_accesses s2 (accesses s2 ++ [TRead rowIndex]))
    end.

(** Modelled from the spec: [block.setRowNode(rowIndex, rowNode)] puts the
    node into the slot of [rowIndex]. *)
Definition setRowNode (o : nat) (rowIndex : Z) (n : Slot) : M unit :=
  let* ps := gets ps_of in
  let* _ := modifyBlock o (fun b => set_slot ps b rowIndex n) in
  logAccess (TWrite rowIndex).

(** Modelled from the spec: [block.setBlankRowNode(rowIndex)] puts a blank
    placeholder into the slot of [rowIndex]. *)
Definition setBlankRowNode (o : nat) (rowIndex : Z) : M unit :=
  let* ps := gets ps_of in
  let* _ := modifyBlock o (fun b => set_slot ps b rowIndex Blank) in
  logAccess (TWrite rowIndex).

(** Modelled from the spec: [block.setDirty()]. *)
Definition setDirty (o : nat) : M unit := modifyBlock o set_dirty.

(** Modelled from the spec: [block.setNewData(rowIndex, dataItem)] creates
    a fresh row node carrying [dataItem], puts it into the slot of
    [rowIndex] and returns it. *)
Definition setNewData (o : nat) (rowIndex : Z) (dataItem : nat) : M nat :=
  let* id := gets nextNodeId in
  let* _ := modify (fun s => set_nodes s (S id) (<[id := dataItem]> (nodeData s))) in
  let* ps := gets ps_of in
  let* _ := modifyBlock o (fun b => set_slot ps b rowIndex (Node id)) in
  let* _ := logAccess (TNew rowIndex dataItem) in
  ret id.

(** ** RowNodeCache (not in this snapshot) *)

Fixpoint lookupBlock (n : Z) (l : list (Z * nat)) : option nat :=
  match l with
  | [] => None
  | (k, o) :: l' => if (k =? n)%Z then Some o else lookupBlock n l'
  end.

(** Modelled from the spec: [getBlock(blockId)], the block object mapped to
    [blockId], if any. *)
Definition blockAt (s : InfiniteCache) (n : Z) : option nat :=
  match lookupBlock n (blocks s) with
  | Some o => match heap s !! o with Some _ => Some o | None => None end
  | None => None
  end.

Definition getBlock (n : Z) : M (option nat) := gets (fun s => blockAt s n).

(** Modelled from the spec: [setBlock(blockNumber, block)] inserts into the
    block map (a new key goes last in iteration order). *)
Definition setBlock (n : Z) (o : nat) : M unit :=
  modify (fun s => set_blocks s (blocks s ++ [(n, o)])).

(** Modelled from the spec: [removeBlock(blockNumber)] deletes the key. *)
Definition removeBlock (n : Z) : M unit :=
  modify (fun s => set_blocks s (filter (fun p => negb (fst p =? n)%Z) (blocks s))).

(** Modelled from the spec: [getBlockCount()], the number of resident blocks. *)
Definition getBlockCount : M Z := gets (fun s => Z.of_nat (length (blocks s))).

(** Modelled from the spec: [isActive()], the external activity flag. *)
Definition isActive : M bool := gets active.

(** Modelled from the spec: [isMaxRowFound()]. *)
Definition isMaxRowFound : M bool := gets maxRowFound.

(** Modelled from the spec: [getVirtualRowCount()]. *)
Definition getVirtualRowCount : M Z := gets virtualRowCount.

(** Modelled from the spec: [hack_setVirtualRowCount(n)]. *)
Definition hack_setVirtualRowCount (n : Z) : M unit :=
  modify (fun s => set_virtualRowCount s n).

(** [this.eventService.dispatchEvent(e)]. *)
Definition dispatchEvent (e : Event) : M unit :=
  modify (fun s => set_events s (events s ++ [e])).

Fixpoint insertDesc (p : Z * nat) (l : list (Z * nat)) : list (Z * nat) :=
  match l with
  | [] => [p]
  | q :: l' => if (fst q <=? fst p)%Z then p :: l else q :: insertDesc p l'
  end.

Fixpoint sortDesc (l : list (Z * nat)) : list (Z * nat) :=
  match l with
  | [] => []
  | p :: l' => insertDesc p (sortDesc l')
  end.

(** Modelled from the spec: [forEachBlockInReverseOrder] visits the blocks
    (a snapshot of the map) in descending block-number order. *)
Definition blocksInReverseOrder (s : InfiniteCache) : list (Z * nat) :=
  sortDesc (blocks s).

(** Modelled from the spec: [forEachBlockInOrder] visits the blocks (a
    snapshot of the map) in the map's iteration order; the callback gets
    the block object. *)
Definition forEachBlockInOrder (f : nat -> M unit) : M unit :=
  fun s => mapM_ (fun p => f (snd p)) (filter (fun p => bool_decide (is_Some (heap s !! snd p))) (blocks s)) s.

(** Modelled from the spec: [onPageLoaded], the cache's load-completion
    listener: releases one in-flight load (the accounting the spec says the
    listener exists for); [loadCallbacks] records each call. *)
Definition onPageLoaded (o : nat) : M unit :=
  modify (fun s => set_loadCallbacks (set_loadsInFlight s (Nat.pred (loadsInFlight s)))
                     (loadCallbacks s ++ [o])).

(** Modelled from the spec: [checkBlockToLoad()] starts loading every
    resident block that is [NotLoaded], or dirty and not [Loading]. *)
Definition startLoadIfNeeded (o : nat) : M unit :=
  fun s =>
    match heap s !! o with
    | Some b =>
        if match bstate b with NotLoaded => true | Loading => false | Loaded => dirty b end
        then (tt, set_loadsInFlight (set_heap s (<[o := set_bstate b Loading]> (heap s)))
                    (S (loadsInFlight s)))
        else (tt, s)
    | None => (tt, s)
    end.

Definition checkBlockToLoad : M unit := forEachBlockInOrder startLoadIfNeeded.

(** Modelled from the spec: on completion of a block's fetch, a success
    fills the slots with fresh nodes for the returned items (blank beyond
    them), clears [dirty] and moves to [Loaded]; a failure leaves the slots
    blank.  Either way every listener registered on the block object is
    called, whether or not the block is still in the block map. *)
Fixpoint allocNodes (items : list nat) : M (list nat) :=
  match items with
  | [] => ret []
  | it :: rest =>
      let* id := gets nextNodeId in
      let* _ := modify (fun s => set_nodes s (S id) (<[id := it]> (nodeData s))) in
      let* ids := allocNodes rest in
      ret (id :: ids)
  end.

Definition fireListeners (o : nat) (ls : list Listener) : M unit :=
  mapM_ (fun l => match l with OnPageLoaded => onPageLoaded o end) ls.

Definition loadComplete (o : nat) (result : option (list nat)) : M unit :=
  fun s =>
    match heap s !! o with
    | None => (tt, s)
    | Some b =>
        let n := Z.to_nat (ps_of s) in
        (let* rows := match result with
                      | Some items =>
                          let* ids := allocNodes items in
                          ret (firstn n (map Node ids) ++ repeat Blank (n - length items))
                      | None => ret (repeat Blank n)
                      end in
         let* _ := modifyBlock o (fun b' =>
                     mkBlock (pageNumber b') Loaded
                       (match result with Some _ => false | None => dirty b' end)
                       rows (lastAccessed b') (listeners b')) in
         fireListeners o (listeners b)) s
    end.

(** Modelled from the spec: the RowNodeCache constructor leaves the block
    map empty and the virtual row count at 0. *)
Definition emptyCache (params : CacheParams) (isActive : bool) : InfiniteCache :=
  mkCache params isActive [] ∅ 0 0 0 ∅ 0%Z false 0 [] [] [].

(** ** InfiniteCache (infiniteCache.ts) *)

(** [removeBlockFromCache(pageToRemove)]: nothing for [null]; otherwise only
    the map entry goes, the block's listener stays registered. *)
Definition removeBlockFromCache (pageToRemove : option nat) : M unit :=
  match pageToRemove with
  | None => ret tt
  | Some o => fun s =>
      match heap s !! o with
      | Some b => removeBlock (pageNumber b) s
      | None => (tt, s)
      end
  end.

Definition lastAccessedOf (h : gmap nat InfiniteBlock) (o : nat) : nat :=
  match h !! o with Some b => lastAccessed b | None => 0 end.

(** The [forEachBlockInOrder] scan of [findLeastRecentlyUsedPage]. *)
Fixpoint lruScan (h : gmap nat InfiniteBlock) (pageToExclude : nat)
    (l : list (Z * nat)) (lruPage : option nat) : option nat :=
  match l with
  | [] => lruPage
  | (_, o) :: l' =>
      match h !! o with
      | None => lruScan h pageToExclude l' lruPage
      | Some block =>
          if Nat.eqb o pageToExclude then lruScan h pageToExclude l' lruPage
          else match lruPage with
               | None => lruScan h pageToExclude l' (Some o)
               | Some p =>
                   if Nat.ltb (lastAccessed block) (lastAccessedOf h p)
                   then lruScan h pageToExclude l' (Some o)
                   else lruScan h pageToExclude l' lruPage
               end
      end
  end.

Definition findLeastRecentlyUsedPage (pageToExclude : nat) : M (option nat) :=
  gets (fun s => lruScan (heap s) pageToExclude (blocks s) None).

(** [new InfiniteBlock(blockNumber, cacheParams)]: a fresh heap object
    ([context.wireBean] only injects beans). *)
Definition allocBlock (b : InfiniteBlock) : M nat :=
  fun s => (nextObj s, set_heap (set_nextObj s (S (nextObj s))) (<[nextObj s := b]> (heap s))).

Definition createBlock (blockNumber : Z) : M nat :=
  let* ps := gets ps_of in
  let* newBlock := allocBlock (newInfiniteBlock blockNumber ps) in
  let* _ := modifyBlock newBlock (fun b => add_listener b OnPageLoaded) in
  let* _ := setBlock blockNumber newBlock in
  let* mx := gets (fun s => maxBlocksInCache (cacheParams s)) in
  let* cnt := getBlockCount in
  let needToPurge := match mx with Some m => (m <? cnt)%Z | None => false end in
  let* _ := if needToPurge
            then let* lruPage := findLeastRecentlyUsedPage newBlock in
                 removeBlockFromCache lruPage
            else ret tt in
  let* _ := checkBlockToLoad in
  ret newBlock.

(** [getRow(rowIndex, dontCreatePage)]; [Math.floor] of a quotient is
    [Z.div] (floor division). *)
Definition getRow (rowIndex : Z) (dontCreatePage : bool) : M (option Slot) :=
  let* ps := gets ps_of in
  let blockId := (rowIndex / ps)%Z in
  let* block := getBlock blockId in
  match block with
  | Some o => blockGetRow o rowIndex
  | None =>
      if dontCreatePage then ret None
      else let* o := createBlock blockId in blockGetRow o rowIndex
  end.

(** The [@PostConstruct] hook: [this.getRow(0)], [dontCreatePage] defaulting
    to [false]. *)
Definition init : M unit := let* _ := getRow 0 false in ret tt.

(** One iteration of the loop of [moveItemsDown]. *)
Definition moveStep (page : nat) (indexOfLastRowToMove moveCount currentRowIndex : Z) : M unit :=
  if (currentRowIndex <? indexOfLastRowToMove)%Z then ret tt
  else
    let indexOfNodeWeWant := (currentRowIndex - moveCount)%Z in
    let* nodeForThisIndex := getRow indexOfNodeWeWant true in
    match nodeForThisIndex with
    | Some n => setRowNode page currentRowIndex n
    | None => let* _ := setBlankRowNode page currentRowIndex in setDirty page
    end.

(** [hi, hi - 1, ..., hi - n + 1]. *)
Fixpoint downFrom (hi : Z) (n : nat) : list Z :=
  match n with
  | O => []
  | S n' => hi :: downFrom (hi - 1)%Z n'
  end.

(** [for (currentRowIndex = endRow - 1; currentRowIndex >= startRow; currentRowIndex--)]. *)
Definition moveItemsDown (page : nat) (moveFromIndex moveCount : Z) : M unit :=
  fun s =>
    match heap s !! page with
    | None => (tt, s)
    | Some b =>
        let startRow := getStartRow (ps_of s) b in
        let endRow := getEndRow (ps_of s) b in
        mapM_ (moveStep page (moveFromIndex + moveCount)%Z moveCount)
          (downFrom (endRow - 1)%Z (Z.to_nat (endRow - startRow))) s
    end.

(** [for (index = 0; index < items.length; index++)] of [insertItems]. *)
Fixpoint insertItemsFrom (block : nat) (pageStartRow pageEndRow indexToInsert index : Z)
    (items : list nat) : M (list nat) :=
  match items with
  | [] => ret []
  | dataItem :: rest =>
      let rowIndex := (indexToInsert + index)%Z in
      let* here :=
        if (pageStartRow <=? rowIndex)%Z && (rowIndex <? pageEndRow)%Z
        then let* newRowNode := setNewData block rowIndex dataItem in ret [newRowNode]
        else ret [] in
      let* more := insertItemsFrom block pageStartRow pageEndRow indexToInsert (index + 1)%Z rest in
      ret (here ++ more)
  end.

Definition insertItems (block : nat) (indexToInsert : Z) (items : list nat) : M (list nat) :=
  fun s =>
    match heap s !! block with
    | None => ([], s)
    | Some b =>
        insertItemsFrom block (getStartRow (ps_of s) b) (getEndRow (ps_of s) b)
          indexToInsert 0 items s
    end.

(** The callback [insertItemsAtIndex] passes to [forEachBlockInReverseOrder]. *)
Definition insertCallback (indexToInsert : Z) (items : list nat) (block : nat) : M (list nat) :=
  fun s =>
    match heap s !! block with
    | None => ([], s)
    | Some b =>
        if (getEndRow (ps_of s) b <=? indexToInsert)%Z then ([], s)
        else (let* _ := moveItemsDown block indexToInsert (Z.of_nat (length items)) in
              insertItems block indexToInsert items) s
    end.

Definition dispatchModelUpdated : M unit :=
  let* a := isActive in
  if a then dispatchEvent ModelUpdated else ret tt.

Definition insertItemsAtIndex (indexToInsert : Z) (items : list nat) : M unit :=
  let* order := gets blocksInReverseOrder in
  let* newNodes := concatMapM (fun p => insertCallback indexToInsert items (snd p)) order in
  let* mrf := isMaxRowFound in
  let* _ := if mrf
            then let* v := getVirtualRowCount in
                 hack_setVirtualRowCount (v + Z.of_nat (length items))%Z
            else ret tt in
  let* _ := dispatchModelUpdated in
  dispatchEvent (ItemsAdded newNodes).

Definition refreshCache : M unit :=
  let* _ := forEachBlockInOrder setDirty in checkBlockToLoad.

Definition purgeCache : M unit :=
  let* _ := forEachBlockInOrder (fun block => removeBlockFromCache (Some block)) in
  dispatchModelUpdated.

(** ** Descriptions used in the statements *)

(** Page number of every allocated block object. *)
Definition pnOf (s : InfiniteCache) : gmap nat Z := pageNumber <$> heap s.

(** Reachable shape of the block map: distinct keys, and each key maps to
    an allocated block whose page number is that key. *)
Definition wf (s : InfiniteCache) : Prop :=
  NoDup (map fst (blocks s)) /\
  Forall (fun p => pnOf s !! snd p = Some (fst p)) (blocks s).

(** The read [getRow(p, true)] performs: one, if the block of [p] exists. *)
Definition readTrace (s : InfiniteCache) (p : Z) : list Access :=
  match blockAt s (p / ps_of s)%Z with Some _ => [TRead p] | None => [] end.

(** The row at absolute position [p], as [getRow(p, true)] returns it:
    the slot of [p] in the block mapped to [floor(p / pageSize)]. *)
Definition rowAt (s : InfiniteCache) (p : Z) : option Slot :=
  match blockAt s (p / ps_of s)%Z with
  | Some o => match heap s !! o with Some b => slotAt (ps_of s) b p | None => None end
  | None => None
  end.

(** Every block object holds [pageSize] row slots, as InfiniteBlock
    allocates them. *)
Definition rowsSized (s : InfiniteCache) : Prop :=
  forall o b, heap s !! o = Some b -> length (rowNodes b) = Z.to_nat (ps_of s).

(** Reads and writes of the iteration of [moveItemsDown] at row [r]. *)
Definition moveTraceAt (s : InfiniteCache) (indexOfLastRowToMove k r : Z) : list Access :=
  if (r <? indexOfLastRowToMove)%Z then [] else readTrace s (r - k)%Z ++ [TWrite r].

(** Positions and items [insertItems] materialises in the range [st, en). *)
Fixpoint newItemsFrom (st en idx index : Z) (items : list nat) : list (Z * nat) :=
  match items with
  | [] => []
  | it :: rest =>
      (if (st <=? idx + index)%Z && (idx + index <? en)%Z then [((idx + index)%Z, it)] else [])
      ++ newItemsFrom st en idx (index + 1)%Z rest
  end.

(** Reads and writes of the callback of [insertItemsAtIndex] on block [o]:
    nothing if the block ends at or before [idx]; otherwise the rows from
    the last one down to the first, then the new items. *)
Definition blockTrace (s : InfiniteCache) (idx : Z) (items : list nat) (o : nat) : list Access :=
  match pnOf s !! o with
  | None => []
  | Some n =>
      let ps := ps_of s in
      let st := (n * ps)%Z in
      let en := (st + ps)%Z in
      let k := Z.of_nat (length items) in
      if (en <=? idx)%Z then []
      else flat_map (moveTraceAt s (idx + k) k) (downFrom (en - 1) (Z.to_nat (en - st)))
           ++ map (fun pi => TNew (fst pi) (snd pi)) (newItemsFrom st en idx 0 items)
  end.

(** The items the callback on block [o] materialises, in order. *)
Definition blockNewItems (s : InfiniteCache) (idx : Z) (items : list nat) (o : nat) : list nat :=
  match pnOf s !! o with
  | None => []
  | Some n =>
      let ps := ps_of s in
      let st := (n * ps)%Z in
      let en := (st + ps)%Z in
      if (en <=? idx)%Z then [] else map snd (newItemsFrom st en idx 0 items)
  end.

Definition writePos (a : Access) : option Z :=
  match a with TRead _ => None | TWrite p => Some p | TNew p _ => Some p end.

(** No read of a position comes after a write to that position. *)
Definition readsBeforeWrites (tr : list Access) : Prop :=
  forall pre p post, tr = pre ++ TRead p :: post ->
  Forall (fun a => writePos a <> Some p) pre.

(** The eviction test of [createBlock] once the block map holds [cnt] blocks. *)
Definition needToPurgeAt (s : InfiniteCache) (cnt : nat) : bool :=
  match maxBlocksInCache (cacheParams s) with
  | Some m => (m <? Z.of_nat cnt)%Z
  | None => false
  end.

(** What a monadic step leaves alone. *)
Definition Fr (s s' : InfiniteCache) : Prop :=
  cacheParams s' = cacheParams s /\ active s' = active s /\ blocks s' = blocks s /\
  pnOf s' = pnOf s /\ virtualRowCount s' = virtualRowCount s /\
  maxRowFound s' = maxRowFound s /\ events s' = events s.

Definition Keeps (s s' : InfiniteCache) : Prop :=
  Fr s s' /\ nextNodeId s' = nextNodeId s /\ nodeData s' = nodeData s.

(** [nn] are the nodes created from [s] to [s'], fresh and consecutive,
    carrying the data items [E] in order. *)
Definition NewNodes (s s' : InfiniteCache) (nn : list nat) (E : list nat) : Prop :=
  nn = seq (nextNodeId s) (length E) /\
  nextNodeId s' = nextNodeId s + length E /\
  (forall id, id < nextNodeId s -> nodeData s' !! id = nodeData s !! id) /\
  map (fun id => nodeData s' !! id) nn = map Some E.

(** Non-increasing block numbers. *)
Definition keyGe (p q : Z * nat) : Prop := (fst q <= fst p)%Z.

(** The parts of a block object that only creation sets: its page number
    and its listeners. *)
Definition shapeOf (b : InfiniteBlock) : Z * list Listener := (pageNumber b, listeners b).

(** [checkBlockToLoad] only changes load states and the in-flight count. *)
Definition LoadFrame (s s' : InfiniteCache) : Prop :=
  blocks s' = blocks s /\ shapeOf <$> heap s' = shapeOf <$> heap s /\
  cacheParams s' = cacheParams s /\ active s' = active s /\ events s' = events s /\
  loadCallbacks s' = loadCallbacks s /\ nextObj s' = nextObj s /\
  lastAccessedSequence s' = lastAccessedSequence s.

(** Every allocated block object has a reference below [nextObj], so a
    new [InfiniteBlock] is a fresh object. *)
Definition allocBelow (s : InfiniteCache) : Prop :=
  forall o, is_Some (heap s !! o) -> o < nextObj s.

(** The invariant the cache operations keep. *)
Definition cacheInv (s : InfiniteCache) : Prop := wf s /\ allocBelow s.

(** A monadic step that allocates no block object. *)
Definition noAlloc {A} (m : M A) : Prop := forall s, nextObj (snd (m s)) = nextObj s.

(** ** The concrete scenario of the spec *)

(** A loaded block holding [rows], last accessed at [la], with the cache's
    listener registered. *)
Definition c2Block (n : Z) (rows : list Slot) (la : nat) : InfiniteBlock :=
  mkBlock n Loaded false rows la [OnPageLoaded].

(** [pageSize = 2]; block 0 holds rows [r0 = Node 0], [r1 = Node 1], block 1
    holds [r2 = Node 2], [r3 = Node 3]; block 0 was accessed after block 1. *)
Definition c2State (mx : option Z) (act mrf : bool) (vrc : Z) : InfiniteCache :=
  mkCache (mkParams 2 mx) act [(0%Z, 0); (1%Z, 1)]
    (<[1 := c2Block 1 [Node 2; Node 3] 0]> (<[0 := c2Block 0 [Node 0; Node 1] 1]> ∅))
    2 2 4 (<[3 := 13]> (<[2 := 12]> (<[1 := 11]> (<[0 := 10]> ∅)))) vrc mrf 0 [] [] [].

(** A pass of [getRow(i)] calls (block creation allowed, as the renderer
    calls it) over the given indices, collecting the results. *)
Fixpoint getRowPass (l : list Z) : M (list (option Slot)) :=
  match l with
  | [] => ret []
  | i :: l' => let* r := getRow i false in let* rs := getRowPass l' in ret (r :: rs)
  end.

(** ** Frame lemmas *)

Lemma Fr_refl s : Fr s s.
Proof. unfold Fr; tauto. Qed.

Lemma Fr_trans s1 s2 s3 : Fr s1 s2 -> Fr s2 s3 -> Fr s1 s3.
Proof.
  unfold Fr; intros (?&?&?&?&?&?&?) (?&?&?&?&?&?&?); repeat split; congruence.
Qed.

Lemma Keeps_refl s : Keeps s s.
Proof. split; [apply Fr_refl|auto]. Qed.

Lemma Keeps_trans s1 s2 s3 : Keeps s1 s2 -> Keeps s2 s3 -> Keeps s1 s3.
Proof.
  intros (?&?&?) (?&?&?); split; [eapply Fr_trans; eauto|split; congruence].
Qed.

Lemma pn_insert_same (h : gmap nat InfiniteBlock) o b b' :
  h !! o = Some b -> pageNumber b' = pageNumber b ->
  pageNumber <$> <[o := b']> h = pageNumber <$> h.
Proof.
  intros Hb Hp. rewrite fmap_insert, Hp. apply insert_id.
  rewrite lookup_fmap, Hb. reflexivity.
Qed.

Lemma heap_Some_pn s s' o :
  pnOf s' = pnOf s -> is_Some (heap s' !! o) <-> is_Some (heap s !! o).
Proof.
  unfold pnOf; intros Hpn.
  assert (E : (pageNumber <$> heap s') !! o = (pageNumber <$> heap s) !! o) by now rewrite Hpn.
  rewrite !lookup_fmap in E.
  destruct (heap s' !! o), (heap s !! o); simpl in E; split; intros [? ?];
    try discriminate; eauto.
Qed.

Lemma blockAt_Fr s s' n : Fr s s' -> blockAt s' n = blockAt s n.
Proof.
  intros (_&_&Hb&Hpn&_). unfold blockAt. rewrite Hb.
  destruct (lookupBlock n (blocks s)) as [o|]; [|reflexivity].
  pose proof (heap_Some_pn s s' o Hpn) as E.
  destruct (heap s' !! o), (heap s !! o); try reflexivity;
    exfalso; destruct E as [E1 E2].
  - destruct (E1 ltac:(eauto)); discriminate.
  - destruct (E2 ltac:(eauto)); discriminate.
Qed.

Lemma ps_Fr s s' : Fr s s' -> ps_of s' = ps_of s.
Proof. intros (H&_). unfold ps_of. now rewrite H. Qed.

Lemma readTrace_Fr s s' p : Fr s s' -> readTrace s' p = readTrace s p.
Proof.
  intros H. unfold readTrace. rewrite (ps_Fr _ _ H), (blockAt_Fr _ _ _ H). reflexivity.
Qed.

Lemma moveTraceAt_Fr s s' l k r : Fr s s' -> moveTraceAt s' l k r = moveTraceAt s l k r.
Proof. intros H. unfold moveTraceAt. now rewrite (readTrace_Fr _ _ _ H). Qed.

Lemma blockAt_Some s n o : blockAt s n = Some o -> exists b, heap s !! o = Some b.
Proof.
  unfold blockAt. destruct (lookupBlock n (blocks s)); [|discriminate].
  destruct (heap s !! n0) eqn:E; intros H; inversion H; subst; eauto.
Qed.

(** ** Primitive steps *)

Lemma modifyBlock_keeps o f s :
  (forall b, pageNumber (f b) = pageNumber b) ->
  Keeps s (exec (modifyBlock o f) s) /\ accesses (exec (modifyBlock o f) s) = accesses s.
Proof.
  intros Hf. unfold exec, modifyBlock, modify; simpl.
  destruct (heap s !! o) as [b|] eqn:Hb; [|split; [apply Keeps_refl|reflexivity]].
  repeat split; simpl; auto. unfold pnOf; simpl. apply (pn_insert_same _ _ b); auto.
Qed.

Lemma getRow_nocreate p s :
  let '(r, s') := getRow p true s in
  Keeps s s' /\ accesses s' = accesses s ++ readTrace s p /\
  (blockAt s (p / ps_of s)%Z = None -> r = None /\ s' = s).
Proof.
  unfold getRow, bind, gets, getBlock, readTrace; simpl.
  destruct (blockAt s (p / ps_of s)%Z) as [o|] eqn:E.
  - destruct (blockAt_Some _ _ _ E) as [b Hb]. unfold blockGetRow. rewrite Hb.
    repeat split; simpl; auto; try discriminate.
    unfold pnOf; simpl. apply (pn_insert_same _ _ b); auto.
  - simpl. repeat split; auto. rewrite app_nil_r; reflexivity.
Qed.

Lemma setRowNode_spec o r n s :
  Keeps s (exec (setRowNode o r n) s) /\
  accesses (exec (setRowNode o r n) s) = accesses s ++ [TWrite r].
Proof.
  unfold setRowNode, bind, gets, logAccess, exec; cbv beta iota.
  destruct (modifyBlock_keeps o (fun b => set_slot (ps_of s) b r n) s) as [(H1&H2&H3) H4];
    [reflexivity|].
  unfold exec in *. destruct (modifyBlock o _ s) as [u s1]; simpl in *.
  destruct H1 as (?&?&?&?&?&?&?).
  repeat split; simpl; auto; congruence.
Qed.

Lemma setBlankRowNode_spec o r s :
  Keeps s (exec (setBlankRowNode o r) s) /\
  accesses (exec (setBlankRowNode o r) s) = accesses s ++ [TWrite r].
Proof.
  unfold setBlankRowNode, bind, gets, logAccess, exec; cbv beta iota.
  destruct (modifyBlock_keeps o (fun b => set_slot (ps_of s) b r Blank) s) as [(H1&H2&H3) H4];
    [reflexivity|].
  unfold exec in *. destruct (modifyBlock o _ s) as [u s1]; simpl in *.
  destruct H1 as (?&?&?&?&?&?&?).
  repeat split; simpl; auto; congruence.
Qed.

Lemma setDirty_spec o s :
  Keeps s (exec (setDirty o) s) /\ accesses (exec (setDirty o) s) = accesses s.
Proof. apply modifyBlock_keeps. reflexivity. Qed.

Lemma setNewData_spec o r it s :
  let '(id, s') := setNewData o r it s in
  Fr s s' /\ id = nextNodeId s /\ nextNodeId s' = S (nextNodeId s) /\
  nodeData s' = <[nextNodeId s := it]> (nodeData s) /\
  accesses s' = accesses s ++ [TNew r it].
Proof.
  unfold setNewData, bind, gets, logAccess, ret; cbv beta iota.
  unfold modify at 1. cbv beta iota.
  set (s0 := set_nodes s (S (nextNodeId s)) (<[nextNodeId s:=it]> (nodeData s))).
  destruct (modifyBlock_keeps o (fun b => set_slot (ps_of s0) b r (Node (nextNodeId s))) s0)
    as [(H1&H2&H3) H4]; [reflexivity|].
  unfold exec in *. destruct (modifyBlock o _ s0) as [u s1]; simpl in *.
  destruct H1 as (?&?&?&?&?&?&?).
  repeat split; simpl; auto; try congruence.
Qed.

Lemma moveStep_spec page l k r s :
  let '(_, s') := moveStep page l k r s in
  Keeps s s' /\ accesses s' = accesses s ++ moveTraceAt s l k r.
Proof.
  unfold moveStep, moveTraceAt.
  destruct (r <? l)%Z.
  - simpl. rewrite app_nil_r. split; [apply Keeps_refl|reflexivity].
  - unfold bind at 1. pose proof (getRow_nocreate (r - k)%Z s) as G.
    destruct (getRow (r - k)%Z true s) as [nd s1]. destruct G as [K1 [A1 _]].
    destruct nd as [n|].
    + pose proof (setRowNode_spec page r n s1) as [K2 A2]. unfold exec in *.
      destruct (setRowNode page r n s1) as [u s2]; cbn [fst snd] in *.
      split; [eapply Keeps_trans; eauto|]. rewrite A2, A1, app_assoc. reflexivity.
    + unfold bind. pose proof (setBlankRowNode_spec page r s1) as [K2 A2]. unfold exec in *.
      destruct (setBlankRowNode page r s1) as [u s2]; cbn [fst snd] in *.
      pose proof (setDirty_spec page s2) as [K3 A3]. unfold exec in *.
      destruct (setDirty page s2) as [u' s3]; cbn [fst snd] in *.
      split; [eapply Keeps_trans; [eauto|eapply Keeps_trans; eauto]|].
      rewrite A3, A2, A1, app_assoc. reflexivity.
Qed.

Lemma moveLoop_spec page l k rs s :
  let '(_, s') := mapM_ (moveStep page l k) rs s in
  Keeps s s' /\ accesses s' = accesses s ++ flat_map (moveTraceAt s l k) rs.
Proof.
  revert s. induction rs as [|r rs IH]; intros s; simpl.
  - rewrite app_nil_r. split; [apply Keeps_refl|reflexivity].
  - unfold bind. pose proof (moveStep_spec page l k r s) as H1.
    destruct (moveStep page l k r s) as [u s1]. destruct H1 as [K1 A1].
    specialize (IH s1). destruct (mapM_ (moveStep page l k) rs s1) as [u' s2].
    destruct IH as [K2 A2]. split; [eapply Keeps_trans; eauto|].
    rewrite A2, A1, <- app_assoc. f_equal. f_equal.
    apply flat_map_ext. intros r'. apply moveTraceAt_Fr. apply K1.
Qed.

Lemma NewNodes_nil s s' : Keeps s s' -> NewNodes s s' [] [].
Proof.
  intros (_&H1&H2). unfold NewNodes; simpl. repeat split; auto; try lia.
  intros. now rewrite H2.
Qed.

Lemma NewNodes_app s1 s2 s3 nn1 nn2 E1 E2 :
  NewNodes s1 s2 nn1 E1 -> NewNodes s2 s3 nn2 E2 ->
  NewNodes s1 s3 (nn1 ++ nn2) (E1 ++ E2).
Proof.
  intros (N1&C1&O1&D1) (N2&C2&O2&D2). unfold NewNodes.
  rewrite length_app. repeat split.
  - rewrite N1, N2, C1, seq_app. reflexivity.
  - lia.
  - intros id Hid. rewrite O2 by lia. apply O1; lia.
  - rewrite !map_app, <- D1, <- D2. f_equal.
    apply map_ext_in. intros id Hin. rewrite N1 in Hin. apply in_seq in Hin.
    apply O2. lia.
Qed.

Lemma heap_pn_Some s s' o b :
  pnOf s' = pnOf s -> heap s !! o = Some b ->
  exists b', heap s' !! o = Some b' /\ pageNumber b' = pageNumber b.
Proof.
  unfold pnOf; intros Hpn Hb.
  assert (E : (pageNumber <$> heap s') !! o = (pageNumber <$> heap s) !! o) by now rewrite Hpn.
  rewrite !lookup_fmap, Hb in E. destruct (heap s' !! o) as [b'|]; simpl in E; inversion E; eauto.
Qed.

Lemma moveItemsDown_spec page idx k s b :
  heap s !! page = Some b ->
  let '(_, s') := moveItemsDown page idx k s in
  Keeps s s' /\
  accesses s' = accesses s ++
    flat_map (moveTraceAt s (idx + k) k)
      (downFrom (getEndRow (ps_of s) b - 1) (Z.to_nat (getEndRow (ps_of s) b - getStartRow (ps_of s) b))).
Proof.
  intros Hb. unfold moveItemsDown. rewrite Hb. apply moveLoop_spec.
Qed.

Lemma insertItemsFrom_spec block st en idx items : forall index s,
  let '(nn, s') := insertItemsFrom block st en idx index items s in
  Fr s s' /\
  accesses s' = accesses s ++ map (fun pi => TNew (fst pi) (snd pi)) (newItemsFrom st en idx index items) /\
  NewNodes s s' nn (map snd (newItemsFrom st en idx index items)).
Proof.
  induction items as [|it items IH]; intros index s; simpl.
  - rewrite app_nil_r. split; [apply Fr_refl|split; [reflexivity|apply NewNodes_nil, Keeps_refl]].
  - unfold bind at 1.
    destruct ((st <=? idx + index)%Z && (idx + index <? en)%Z).
    + unfold bind at 1. pose proof (setNewData_spec block (idx + index)%Z it s) as H1.
      destruct (setNewData block (idx + index)%Z it s) as [id s1].
      destruct H1 as (F1&I1&C1&D1&A1). cbn [ret].
      unfold bind. specialize (IH (index + 1)%Z s1).
      destruct (insertItemsFrom block st en idx (index + 1)%Z items s1) as [nn s2].
      destruct IH as (F2&A2&N2). cbn [ret].
      split; [eapply Fr_trans; eauto|split].
      * rewrite A2, A1, <- app_assoc. reflexivity.
      * change ([id] ++ nn) with ([id] ++ nn).
        change (map snd ([((idx + index)%Z, it)] ++ newItemsFrom st en idx (index + 1) items))
          with ([it] ++ map snd (newItemsFrom st en idx (index + 1) items)).
        eapply NewNodes_app; [|exact N2].
        unfold NewNodes; simpl. rewrite I1, C1, D1. repeat split; try lia.
        -- intros id' Hid'. apply lookup_insert_ne. lia.
        -- rewrite lookup_insert_eq. reflexivity.
    + cbn [ret]. unfold bind. specialize (IH (index + 1)%Z s).
      destruct (insertItemsFrom block st en idx (index + 1)%Z items s) as [nn s2].
      destruct IH as (F2&A2&N2). cbn [ret app]. auto.
Qed.

Lemma pn_Fr s s' : Fr s s' -> pnOf s' = pnOf s.
Proof. intros (_&_&_&H&_). exact H. Qed.

Lemma blockTrace_Fr s s' idx items o :
  Fr s s' -> blockTrace s' idx items o = blockTrace s idx items o.
Proof.
  intros H. unfold blockTrace. rewrite (pn_Fr _ _ H), (ps_Fr _ _ H).
  destruct (pnOf s !! o); [|reflexivity].
  destruct (_ <=? idx)%Z; [reflexivity|]. f_equal.
  apply flat_map_ext. intros r. apply moveTraceAt_Fr; exact H.
Qed.

Lemma blockNewItems_Fr s s' idx items o :
  Fr s s' -> blockNewItems s' idx items o = blockNewItems s idx items o.
Proof.
  intros H. unfold blockNewItems. rewrite (pn_Fr _ _ H), (ps_Fr _ _ H). reflexivity.
Qed.

Lemma insertCallback_spec idx items o s :
  let '(nn, s') := insertCallback idx items o s in
  Fr s s' /\ accesses s' = accesses s ++ blockTrace s idx items o /\
  NewNodes s s' nn (blockNewItems s idx items o).
Proof.
  unfold insertCallback, blockTrace, blockNewItems.
  destruct (heap s !! o) as [b|] eqn:Hb.
  2:{ assert (E : pnOf s !! o = None) by (unfold pnOf; rewrite lookup_fmap, Hb; reflexivity).
      rewrite E, app_nil_r. split; [apply Fr_refl|split; [reflexivity|apply NewNodes_nil, Keeps_refl]]. }
  assert (E : pnOf s !! o = Some (pageNumber b)) by (unfold pnOf; rewrite lookup_fmap, Hb; reflexivity).
  rewrite E. unfold getEndRow, getStartRow.
  destruct (pageNumber b * ps_of s + ps_of s <=? idx)%Z.
  { rewrite app_nil_r. split; [apply Fr_refl|split; [reflexivity|apply NewNodes_nil, Keeps_refl]]. }
  unfold bind. pose proof (moveItemsDown_spec o idx (Z.of_nat (length items)) s b Hb) as H1.
  destruct (moveItemsDown o idx (Z.of_nat (length items)) s) as [u s1].
  destruct H1 as [K1 A1].
  destruct (heap_pn_Some s s1 o b (pn_Fr _ _ (proj1 K1)) Hb) as (b1&Hb1&Hp1).
  unfold insertItems. rewrite Hb1.
  pose proof (insertItemsFrom_spec o (getStartRow (ps_of s1) b1) (getEndRow (ps_of s1) b1)
                idx items 0 s1) as H2.
  destruct (insertItemsFrom o _ _ idx 0 items s1) as [nn s2].
  destruct H2 as (F2&A2&N2).
  unfold getEndRow, getStartRow in *. rewrite Hp1, (ps_Fr _ _ (proj1 K1)) in *.
  split; [eapply Fr_trans; [apply K1|exact F2]|split].
  - rewrite A2, A1, <- app_assoc. reflexivity.
  - change nn with ([] ++ nn).
    change (map snd (newItemsFrom (pageNumber b * ps_of s) (pageNumber b * ps_of s + ps_of s) idx 0 items))
      with ([] ++ map snd (newItemsFrom (pageNumber b * ps_of s) (pageNumber b * ps_of s + ps_of s) idx 0 items)).
    eapply NewNodes_app; [apply NewNodes_nil; exact K1|exact N2].
Qed.

Lemma insertLoop_spec idx items (order : list (Z * nat)) : forall s,
  let '(nn, s') := concatMapM (fun p => insertCallback idx items (snd p)) order s in
  Fr s s' /\
  accesses s' = accesses s ++ flat_map (fun p => blockTrace s idx items (snd p)) order /\
  NewNodes s s' nn (flat_map (fun p => blockNewItems s idx items (snd p)) order).
Proof.
  induction order as [|p order IH]; intros s; simpl.
  - rewrite app_nil_r. split; [apply Fr_refl|split; [reflexivity|apply NewNodes_nil, Keeps_refl]].
  - unfold bind. pose proof (insertCallback_spec idx items (snd p) s) as H1.
    destruct (insertCallback idx items (snd p) s) as [nn1 s1]. destruct H1 as (F1&A1&N1).
    specialize (IH s1).
    destruct (concatMapM (fun p => insertCallback idx items (snd p)) order s1) as [nn2 s2].
    destruct IH as (F2&A2&N2). cbn [ret].
    assert (EF : flat_map (fun p => blockTrace s1 idx items (snd p)) order
                 = flat_map (fun p => blockTrace s idx items (snd p)) order)
      by (apply flat_map_ext; intros; apply blockTrace_Fr; exact F1).
    assert (EN : flat_map (fun p => blockNewItems s1 idx items (snd p)) order
                 = flat_map (fun p => blockNewItems s idx items (snd p)) order)
      by (apply flat_map_ext; intros; apply blockNewItems_Fr; exact F1).
    rewrite EF in A2. rewrite EN in N2.
    split; [eapply Fr_trans; eauto|split].
    + rewrite A2, A1, <- app_assoc. reflexivity.
    + eapply NewNodes_app; eauto.
Qed.

(** Everything [insertItemsAtIndex] does, in one statement. *)
Lemma insertItemsAtIndex_run idx items s :
  let s' := exec (insertItemsAtIndex idx items) s in
  let order := blocksInReverseOrder s in
  cacheParams s' = cacheParams s /\ active s' = active s /\ blocks s' = blocks s /\
  pnOf s' = pnOf s /\ maxRowFound s' = maxRowFound s /\
  virtualRowCount s' =
    (if maxRowFound s then virtualRowCount s + Z.of_nat (length items) else virtualRowCount s)%Z /\
  accesses s' = accesses s ++ flat_map (fun p => blockTrace s idx items (snd p)) order /\
  exists nn,
    events s' = events s ++ (if active s then [ModelUpdated] else []) ++ [ItemsAdded nn] /\
    NewNodes s s' nn (flat_map (fun p => blockNewItems s idx items (snd p)) order).
Proof.
  unfold insertItemsAtIndex, exec, bind, gets. cbv beta iota.
  pose proof (insertLoop_spec idx items (blocksInReverseOrder s) s) as H.
  destruct (concatMapM _ (blocksInReverseOrder s) s) as [nn s1].
  destruct H as ((P&Ac&B&Pn&V&Mx&Ev)&A1&N1).
  unfold isMaxRowFound, gets. cbv beta iota. rewrite Mx.
  destruct N1 as (N1a&N1b&N1c&N1d).
  destruct (maxRowFound s) eqn:Hm;
    unfold getVirtualRowCount, hack_setVirtualRowCount, dispatchModelUpdated, isActive,
      dispatchEvent, gets, modify, bind, ret; simpl; rewrite Ac;
    destruct (active s); simpl;
    (split; [auto|split; [auto|split; [auto|split; [auto|split; [auto|split]]]]]);
    rewrite ?V; auto; (split; [auto|]);
    exists nn; (split; [rewrite Ev, <- ?app_assoc; reflexivity|]); repeat split; auto.
Qed.

(** ** Descending traversal *)

Lemma insertDesc_perm p l : Permutation (insertDesc p l) (p :: l).
Proof.
  induction l as [|q l IH]; simpl; [reflexivity|].
  destruct (fst q <=? fst p)%Z; [reflexivity|].
  rewrite IH. apply perm_swap.
Qed.

Lemma sortDesc_perm l : Permutation (sortDesc l) l.
Proof.
  induction l as [|p l IH]; simpl; [reflexivity|].
  rewrite insertDesc_perm, IH. reflexivity.
Qed.

Lemma insertDesc_sorted p l :
  StronglySorted keyGe l -> StronglySorted keyGe (insertDesc p l).
Proof.
  induction l as [|q l IH]; intros H; simpl.
  - repeat constructor.
  - inversion H as [|? ? Hl Hq]; subst.
    destruct (fst q <=? fst p)%Z eqn:E.
    + apply Z.leb_le in E. constructor; [exact H|].
      constructor; [exact E|].
      eapply Forall_impl; [exact Hq|]. unfold keyGe; intros; lia.
    + apply Z.leb_gt in E. constructor; [apply IH, Hl|].
      apply List.Forall_forall. intros x Hx.
      apply (Permutation_in _ (insertDesc_perm p l)) in Hx. destruct Hx as [<-|Hx].
      * unfold keyGe; lia.
      * rewrite List.Forall_forall in Hq. apply Hq, Hx.
Qed.

Lemma sortDesc_sorted l : StronglySorted keyGe (sortDesc l).
Proof.
  induction l as [|p l IH]; simpl; [constructor|]. apply insertDesc_sorted, IH.
Qed.

Lemma strict_of_nodup (l : list (Z * nat)) :
  StronglySorted keyGe l -> NoDup (map fst l) ->
  StronglySorted (fun p q => (fst q < fst p)%Z) l.
Proof.
  induction l as [|p l IH]; intros H N; [constructor|].
  inversion H as [|? ? Hl Hp]; subst. inversion N as [|? ? Hn N']; subst.
  constructor; [apply IH; auto|].
  apply List.Forall_forall. intros q Hq. rewrite List.Forall_forall in Hp.
  specialize (Hp q Hq). unfold keyGe in Hp.
  assert (fst q <> fst p) by (intros E; apply Hn; apply list_elem_of_In; rewrite <- E; apply in_map, Hq).
  lia.
Qed.

(** ** Reads before writes *)

Lemma rbw_nil : readsBeforeWrites [].
Proof. intros pre p post E. destruct pre; discriminate. Qed.

Lemma rbw_cons a T :
  readsBeforeWrites T -> (forall p, In (TRead p) T -> writePos a <> Some p) ->
  readsBeforeWrites (a :: T).
Proof.
  intros H Ha pre p post E. destruct pre as [|a' pre]; [constructor|].
  simpl in E. inversion E; subst. constructor.
  - apply Ha. apply in_or_app. right. left. reflexivity.
  - eapply H. reflexivity.
Qed.

Lemma rbw_app T1 T2 :
  readsBeforeWrites T1 -> readsBeforeWrites T2 ->
  (forall a p, In a T1 -> In (TRead p) T2 -> writePos a <> Some p) ->
  readsBeforeWrites (T1 ++ T2).
Proof.
  induction T1 as [|a T1 IH]; intros H1 H2 X; simpl; [exact H2|].
  apply rbw_cons.
  - apply IH; auto.
    + intros pre p post E. specialize (H1 (a :: pre) p post). rewrite E in H1.
      specialize (H1 eq_refl). inversion H1; auto.
    + intros a' p Ha' Hp. apply X; simpl; auto.
  - intros p Hp. apply in_app_or in Hp. destruct Hp as [Hp|Hp].
    + apply in_split in Hp. destruct Hp as (l1&l2&E).
      intros W. specialize (H1 (a :: l1) p l2). rewrite E in H1. specialize (H1 eq_refl).
      inversion H1; subst. contradiction.
    + apply X; simpl; auto.
Qed.

Lemma downFrom_in hi n r : In r (downFrom hi n) -> (hi - Z.of_nat n < r <= hi)%Z.
Proof.
  revert hi. induction n as [|n IH]; intros hi H; simpl in H; [contradiction|].
  destruct H as [<-|H]; [lia|]. apply IH in H. lia.
Qed.

Lemma newItemsFrom_in st en idx index items q it :
  In (q, it) (newItemsFrom st en idx index items) -> (st <= q < en)%Z.
Proof.
  revert index. induction items as [|x items IH]; intros index H; simpl in H; [contradiction|].
  apply in_app_or in H. destruct H as [H|H]; [|eapply IH; eauto].
  destruct ((st <=? idx + index)%Z && (idx + index <? en)%Z) eqn:E; [|contradiction].
  destruct H as [H|[]]. inversion H; subst.
  apply andb_prop in E. destruct E as [E1 E2]. apply Z.leb_le in E1. apply Z.ltb_lt in E2. lia.
Qed.

Lemma moveTraceAt_in s L k r a :
  In a (moveTraceAt s L k r) -> a = TWrite r \/ a = TRead (r - k)%Z.
Proof.
  unfold moveTraceAt, readTrace. destruct (r <? L)%Z; [intros []|].
  destruct (blockAt s _); simpl; intuition.
Qed.

Lemma rbw_moveTraceAt s L k r : readsBeforeWrites (moveTraceAt s L k r).
Proof.
  unfold moveTraceAt, readTrace. destruct (r <? L)%Z; [apply rbw_nil|].
  destruct (blockAt s _); simpl;
    repeat (apply rbw_cons; [|intros p Hp; simpl in Hp; intuition discriminate]);
    apply rbw_nil.
Qed.

Lemma rbw_moves s L k hi n :
  (0 <= k)%Z -> readsBeforeWrites (flat_map (moveTraceAt s L k) (downFrom hi n)).
Proof.
  intros Hk. revert hi. induction n as [|n IH]; intros hi; simpl; [apply rbw_nil|].
  apply rbw_app; [apply rbw_moveTraceAt|apply IH|].
  intros a p Ha Hp. apply moveTraceAt_in in Ha.
  apply in_flat_map in Hp. destruct Hp as (r&Hr&Hp).
  apply moveTraceAt_in in Hp. apply downFrom_in in Hr.
  destruct Ha as [->| ->]; simpl; [|discriminate].
  destruct Hp as [Hp|Hp]; inversion Hp; subst. intros W; inversion W; lia.
Qed.

Lemma blockTrace_bounds s idx items o n a :
  (0 < ps_of s)%Z -> pnOf s !! o = Some n -> In a (blockTrace s idx items o) ->
  (forall q, writePos a = Some q -> (n * ps_of s <= q < n * ps_of s + ps_of s)%Z) /\
  (forall p, a = TRead p -> (p < n * ps_of s + ps_of s)%Z).
Proof.
  intros Hps Hn Ha. unfold blockTrace in Ha. rewrite Hn in Ha.
  destruct (n * ps_of s + ps_of s <=? idx)%Z; [contradiction|].
  apply in_app_or in Ha. destruct Ha as [Ha|Ha].
  - apply in_flat_map in Ha. destruct Ha as (r&Hr&Ha).
    apply downFrom_in in Hr. rewrite Z2Nat.id in Hr by lia.
    apply moveTraceAt_in in Ha.
    destruct Ha as [->| ->]; split; intros q Hq; inversion Hq; subst; lia.
  - apply in_map_iff in Ha. destruct Ha as ([q it]&<-&Hq).
    apply newItemsFrom_in in Hq. simpl. split; intros q' Hq'; inversion Hq'; subst; lia.
Qed.

Lemma rbw_blockTrace s idx items o : readsBeforeWrites (blockTrace s idx items o).
Proof.
  unfold blockTrace. destruct (pnOf s !! o); [|apply rbw_nil].
  destruct (_ <=? idx)%Z; [apply rbw_nil|].
  apply rbw_app; [apply rbw_moves; lia| |].
  - intros pre p post E. exfalso.
    assert (Hin : In (TRead p) (map (fun pi => TNew (fst pi) (snd pi))
                    (newItemsFrom (z * ps_of s) (z * ps_of s + ps_of s) idx 0 items)))
      by (rewrite E; apply in_or_app; right; left; reflexivity).
    apply in_map_iff in Hin. destruct Hin as (?&H&_). discriminate.
  - intros a p _ Hp. apply in_map_iff in Hp. destruct Hp as (?&H&_). discriminate.
Qed.

Lemma rbw_blocks s idx items (order : list (Z * nat)) :
  (0 < ps_of s)%Z ->
  StronglySorted (fun p q => (fst q < fst p)%Z) order ->
  Forall (fun p => pnOf s !! snd p = Some (fst p)) order ->
  readsBeforeWrites (flat_map (fun p => blockTrace s idx items (snd p)) order).
Proof.
  intros Hps. induction order as [|[n o] order IH]; intros Hs Hf; simpl; [apply rbw_nil|].
  inversion Hs as [|? ? Hs' Hlt]; subst. inversion Hf as [|? ? Hn Hf']; subst. simpl in Hn.
  apply rbw_app; [apply rbw_blockTrace|apply IH; auto|].
  intros a p Ha Hp. apply in_flat_map in Hp. destruct Hp as ([n' o']&Hin&Hp).
  rewrite List.Forall_forall in Hlt, Hf'. specialize (Hlt _ Hin). specialize (Hf' _ Hin).
  simpl in Hlt, Hf'.
  destruct (blockTrace_bounds s idx items o n a Hps Hn Ha) as [W _].
  destruct (blockTrace_bounds s idx items o' n' (TRead p) Hps Hf' Hp) as [_ R].
  specialize (R p eq_refl).
  intros E. specialize (W p E). nia.
Qed.

(** ** createBlock, eviction and loading *)

Lemma set_heap_twice s h1 h2 : set_heap (set_heap s h1) h2 = set_heap s h2.
Proof. reflexivity. Qed.

Lemma createBlock_unfold n s :
  createBlock n s =
  (nextObj s,
   exec checkBlockToLoad
     (let s1 := set_blocks (set_heap (set_nextObj s (S (nextObj s)))
                  (<[nextObj s := add_listener (newInfiniteBlock n (ps_of s)) OnPageLoaded]> (heap s)))
                  (blocks s ++ [(n, nextObj s)]) in
      if needToPurgeAt s (length (blocks s) + 1)
      then exec (removeBlockFromCache (lruScan (heap s1) (nextObj s) (blocks s1) None)) s1
      else s1)).
Proof.
  unfold createBlock, bind, gets, allocBlock, modifyBlock, modify, setBlock, getBlockCount, ret, exec,
    needToPurgeAt.
  simpl. rewrite lookup_insert_eq, insert_insert_eq. simpl. rewrite length_app, set_heap_twice. simpl.
  destruct (match maxBlocksInCache (cacheParams s) with
            | Some m => (m <? Z.of_nat (length (blocks s) + 1))%Z | None => false end).
  - destruct (removeBlockFromCache _ _). destruct (checkBlockToLoad _). reflexivity.
  - destruct (checkBlockToLoad _). reflexivity.
Qed.

Lemma removeBlockFromCache_exec x s :
  exec (removeBlockFromCache x) s =
  match x with
  | Some o => match heap s !! o with
              | Some b => set_blocks s (filter (fun p => negb (fst p =? pageNumber b)%Z) (blocks s))
              | None => s
              end
  | None => s
  end.
Proof. destruct x as [o|]; [|reflexivity]. unfold exec; simpl. destruct (heap s !! o); reflexivity. Qed.

Lemma fmap_insert_same {B} (f : InfiniteBlock -> B) (h : gmap nat InfiniteBlock) o b b' :
  h !! o = Some b -> f b' = f b -> f <$> <[o := b']> h = f <$> h.
Proof.
  intros Hb Hf. rewrite fmap_insert, Hf. apply insert_id. rewrite lookup_fmap, Hb. reflexivity.
Qed.

Lemma startLoads_frame (l : list (Z * nat)) : forall s,
  LoadFrame s (exec (mapM_ (fun p => startLoadIfNeeded (snd p)) l) s).
Proof.
  induction l as [|p l IH]; intros s; simpl.
  - unfold LoadFrame, exec; simpl; tauto.
  - unfold exec at 1. cbn [mapM_]. unfold bind at 1. unfold startLoadIfNeeded at 1.
    destruct (heap s !! snd p) as [b|] eqn:Hb; [|apply IH].
    destruct (match bstate b with NotLoaded => true | Loading => false | Loaded => dirty b end);
      [|apply IH].
    set (s1 := set_loadsInFlight (set_heap s (<[snd p:=set_bstate b Loading]> (heap s)))
                 (S (loadsInFlight s))).
    change (LoadFrame s (exec (mapM_ (fun p => startLoadIfNeeded (snd p)) l) s1)).
    destruct (IH s1) as (B&H&P&A&E&L&N&Q).
    unfold LoadFrame; rewrite B, H, P, A, E, L, N, Q; simpl.
    repeat split; auto. apply (fmap_insert_same _ _ _ b); auto.
Qed.

Lemma checkBlockToLoad_frame s : LoadFrame s (exec checkBlockToLoad s).
Proof. unfold checkBlockToLoad, forEachBlockInOrder, exec. apply startLoads_frame. Qed.

Lemma shape_pn (h h' : gmap nat InfiniteBlock) o :
  shapeOf <$> h' = shapeOf <$> h ->
  forall b, h !! o = Some b -> exists b', h' !! o = Some b' /\ shapeOf b' = shapeOf b.
Proof.
  intros E b Hb.
  assert (E' : (shapeOf <$> h') !! o = (shapeOf <$> h) !! o) by now rewrite E.
  rewrite !lookup_fmap, Hb in E'. destruct (h' !! o) as [b'|]; simpl in E'; [|discriminate].
  exists b'. split; [reflexivity|congruence].
Qed.

(** *** The least-recently-used scan *)

Lemma lruScan_skip_last h c l acc n :
  lruScan h c (l ++ [(n, c)]) acc = lruScan h c l acc.
Proof.
  revert acc. induction l as [|[k o] l IH]; intros acc; simpl.
  - destruct (h !! c); [rewrite Nat.eqb_refl|]; reflexivity.
  - destruct (h !! o); [|apply IH].
    destruct (Nat.eqb o c); [apply IH|]. destruct acc; [destruct (Nat.ltb _ _)|]; apply IH.
Qed.

Lemma lastAccessedOf_insert_ne h c x o : o <> c -> lastAccessedOf (<[c := x]> h) o = lastAccessedOf h o.
Proof. intros H. unfold lastAccessedOf. rewrite lookup_insert_ne; auto. Qed.

Lemma lruScan_insert_fresh h c x l acc :
  (forall p, In p l -> snd p <> c) -> (forall a, acc = Some a -> a <> c) ->
  lruScan (<[c := x]> h) c l acc = lruScan h c l acc.
Proof.
  revert acc. induction l as [|[k o] l IH]; intros acc Hl Ha; simpl; [reflexivity|].
  assert (Ho : o <> c) by (apply (Hl (k, o)); left; reflexivity).
  rewrite lookup_insert_ne by auto.
  assert (Hl' : forall p, In p l -> snd p <> c) by (intros; apply Hl; right; auto).
  destruct (h !! o) as [b|]; [|apply IH; auto].
  destruct (Nat.eqb o c); [apply IH; auto|].
  destruct acc as [a|]; [|apply IH; auto; intros ? [=<-]; auto].
  rewrite lastAccessedOf_insert_ne by (apply Ha; reflexivity).
  destruct (Nat.ltb _ _); apply IH; auto. intros ? [=<-]; auto.
Qed.

Lemma lruScan_some h c l a :
  (forall p, In p l -> snd p <> c /\ is_Some (h !! snd p)) ->
  (lruScan h c l (Some a) = Some a /\
   Forall (fun p => lastAccessedOf h a <= lastAccessedOf h (snd p)) l) \/
  (exists pre k ok post, l = pre ++ (k, ok) :: post /\
     lastAccessedOf h ok < lastAccessedOf h a /\
     Forall (fun p => lastAccessedOf h ok < lastAccessedOf h (snd p)) pre /\
     Forall (fun p => lastAccessedOf h ok <= lastAccessedOf h (snd p)) post /\
     lruScan h c l (Some a) = Some ok).
Proof.
  revert a. induction l as [|[k1 o1] l IH]; intros a Hl; simpl.
  - left. auto.
  - destruct (Hl (k1, o1) (or_introl eq_refl)) as [Hc [b1 Hb1]]. simpl in Hc, Hb1.
    rewrite Hb1. apply Nat.eqb_neq in Hc. rewrite Hc.
    assert (Hl' : forall p, In p l -> snd p <> c /\ is_Some (h !! snd p)) by (intros; apply Hl; right; auto).
    assert (La : lastAccessed b1 = lastAccessedOf h o1) by (unfold lastAccessedOf; rewrite Hb1; reflexivity).
    rewrite La. destruct (Nat.ltb (lastAccessedOf h o1) (lastAccessedOf h a)) eqn:Lt.
    + apply Nat.ltb_lt in Lt. right.
      destruct (IH o1 Hl') as [[R F]|(pre&k&ok&post&E&L&Fp&Fq&R)].
      * exists [], k1, o1, l. repeat split; auto.
      * exists ((k1, o1) :: pre), k, ok, post. subst l. repeat split; auto; try lia.
    + apply Nat.ltb_ge in Lt.
      destruct (IH a Hl') as [[R F]|(pre&k&ok&post&E&L&Fp&Fq&R)].
      * left. split; auto.
      * right. exists ((k1, o1) :: pre), k, ok, post. subst l. repeat split; auto.
        constructor; [simpl; lia|auto].
Qed.

Lemma lruScan_none h c l :
  l <> [] ->
  (forall p, In p l -> snd p <> c /\ is_Some (h !! snd p)) ->
  exists pre k ok post, l = pre ++ (k, ok) :: post /\
     Forall (fun p => lastAccessedOf h ok < lastAccessedOf h (snd p)) pre /\
     Forall (fun p => lastAccessedOf h ok <= lastAccessedOf h (snd p)) post /\
     lruScan h c l None = Some ok.
Proof.
  destruct l as [|[k1 o1] l]; intros Hne Hl; [contradiction|]. simpl.
  destruct (Hl (k1, o1) (or_introl eq_refl)) as [Hc [b1 Hb1]]. simpl in Hc, Hb1.
  rewrite Hb1. apply Nat.eqb_neq in Hc. rewrite Hc.
  assert (Hl' : forall p, In p l -> snd p <> c /\ is_Some (h !! snd p)) by (intros; apply Hl; right; auto).
  destruct (lruScan_some h c l o1 Hl') as [[R F]|(pre&k&ok&post&E&L&Fp&Fq&R)].
  - exists [], k1, o1, l. repeat split; auto.
  - exists ((k1, o1) :: pre), k, ok, post. subst l. repeat split; auto.
Qed.

Lemma lruScan_mem h c l acc ok :
  lruScan h c l acc = Some ok ->
  acc = Some ok \/ (exists k, In (k, ok) l /\ ok <> c /\ is_Some (h !! ok)).
Proof.
  revert acc. induction l as [|[k o] l IH]; intros acc H; simpl in H; [left; exact H|].
  destruct (h !! o) as [b|] eqn:Hb.
  - destruct (Nat.eqb o c) eqn:Hc.
    + destruct (IH _ H) as [?|(k'&?&?&?)]; [left; auto|right; exists k'; simpl; auto].
    + apply Nat.eqb_neq in Hc.
      assert (Hm : lruScan h c l (Some o) = Some ok -> acc = Some ok \/
                (exists k0, In (k0, ok) ((k, o) :: l) /\ ok <> c /\ is_Some (h !! ok))).
      { intros H'. destruct (IH _ H') as [E|(k'&?&?&?)].
        - injection E as <-. right. exists k. simpl. split; [auto|split; [auto|eexists; eauto]].
        - right. exists k'. simpl. auto. }
      destruct acc as [p|]; [|apply (Hm H)].
      destruct (Nat.ltb _ _); [apply (Hm H)|].
      destruct (IH _ H) as [?|(k'&?&?&?)]; [left; auto|right; exists k'; simpl; auto].
  - destruct (IH _ H) as [?|(k'&?&?&?)]; [left; auto|right; exists k'; simpl; auto].
Qed.

(** *** The block map *)

Lemma lookupBlock_app n l1 l2 :
  lookupBlock n (l1 ++ l2) = match lookupBlock n l1 with Some o => Some o | None => lookupBlock n l2 end.
Proof. induction l1 as [|[k o] l1 IH]; simpl; [reflexivity|]. destruct (k =? n)%Z; auto. Qed.

Lemma lookupBlock_None n l : lookupBlock n l = None <-> Forall (fun p => fst p <> n) l.
Proof.
  induction l as [|[k o] l IH]; cbn [lookupBlock]; [split; auto|].
  destruct (Z.eqb_spec k n) as [E|E].
  - split; [discriminate|]. intros H. inversion H; simpl in *; contradiction.
  - rewrite IH. split; [intros; constructor; auto|intros H; inversion H; auto].
Qed.

Lemma lookupBlock_In n l o : lookupBlock n l = Some o -> In (n, o) l.
Proof.
  induction l as [|[k o'] l IH]; cbn [lookupBlock]; [discriminate|].
  destruct (Z.eqb_spec k n) as [->|E]; [intros [=->]; left; reflexivity|].
  intros H; right; auto.
Qed.

Lemma filter_keep_all (k : Z) (l : list (Z * nat)) :
  Forall (fun p => fst p <> k) l -> filter (fun p => negb (fst p =? k)%Z) l = l.
Proof.
  induction 1 as [|[k' o] l Hk _ IH]; [reflexivity|].
  rewrite filter_cons_True, IH; [reflexivity|]. simpl in Hk.
  apply Z.eqb_neq in Hk. simpl. rewrite Hk. exact I.
Qed.

Lemma filter_drop_key (k : Z) o (l : list (Z * nat)) :
  filter (fun p => negb (fst p =? k)%Z) ((k, o) :: l) = filter (fun p => negb (fst p =? k)%Z) l.
Proof. apply filter_cons_False. simpl. rewrite Z.eqb_refl. simpl. tauto. Qed.

Lemma filter_lookupBlock_None n P `{forall x, Decision (P x)} (l : list (Z * nat)) :
  lookupBlock n l = None -> lookupBlock n (filter P l) = None.
Proof.
  rewrite !lookupBlock_None. intros Hl. apply List.Forall_forall. intros x Hx.
  apply list_elem_of_In, list_elem_of_filter in Hx. destruct Hx as [_ Hx].
  apply list_elem_of_In in Hx. exact (proj1 (List.Forall_forall _ _) Hl x Hx).
Qed.

Lemma wf_lookup s o k : wf s -> In (k, o) (blocks s) -> exists b, heap s !! o = Some b /\ pageNumber b = k.
Proof.
  intros [_ F] Hin. pose proof (proj1 (List.Forall_forall _ _) F _ Hin) as Hp. simpl in Hp.
  unfold pnOf in Hp. rewrite lookup_fmap in Hp.
  destruct (heap s !! o) as [b|]; simpl in Hp; [|discriminate]. injection Hp as Hp. eauto.
Qed.

Lemma wf_blockAt_None s n : wf s -> blockAt s n = None -> lookupBlock n (blocks s) = None.
Proof.
  intros W. unfold blockAt. destruct (lookupBlock n (blocks s)) as [o|] eqn:L; [|reflexivity].
  destruct (wf_lookup s o n W (lookupBlock_In _ _ _ L)) as (b&Hb&_). rewrite Hb. discriminate.
Qed.

Lemma exec_mapM_cons {A} (f : A -> M unit) x l s :
  exec (mapM_ f (x :: l)) s = exec (mapM_ f l) (exec (f x) s).
Proof. unfold exec. cbn [mapM_]. unfold bind. destruct (f x s). reflexivity. Qed.

(** *** Block creation *)

Lemma createBlock_wf n s :
  wf s -> blockAt s n = None ->
  let '(c, s') := createBlock n s in
  c = nextObj s /\ cacheParams s' = cacheParams s /\ active s' = active s /\
  lookupBlock n (blocks s') = Some c /\
  exists b, heap s' !! c = Some b /\ shapeOf b = (n, [OnPageLoaded]).
Proof.
  intros W B. pose proof (wf_blockAt_None s n W B) as L.
  rewrite createBlock_unfold. cbv beta iota zeta.
  set (c := nextObj s).
  set (s1 := set_blocks (set_heap (set_nextObj s (S c))
               (<[c := add_listener (newInfiniteBlock n (ps_of s)) OnPageLoaded]> (heap s)))
               (blocks s ++ [(n, c)])).
  assert (Base : lookupBlock n (blocks s1) = Some c).
  { simpl. rewrite lookupBlock_app, L. simpl. rewrite Z.eqb_refl. reflexivity. }
  assert (Hev : exists bl,
    (if needToPurgeAt s (length (blocks s) + 1)
     then exec (removeBlockFromCache (lruScan (heap s1) c (blocks s1) None)) s1 else s1)
    = set_blocks s1 bl /\ lookupBlock n bl = Some c).
  { destruct (needToPurgeAt _ _); [|exists (blocks s1); split; [reflexivity|exact Base]].
    rewrite removeBlockFromCache_exec.
    destruct (lruScan (heap s1) c (blocks s1) None) as [ok|] eqn:Hl;
      [|exists (blocks s1); split; [reflexivity|exact Base]].
    destruct (heap s1 !! ok) as [bo|] eqn:Ho; [|exists (blocks s1); split; [reflexivity|exact Base]].
    eexists; split; [reflexivity|].
    destruct (lruScan_mem _ _ _ _ _ Hl) as [E|(k&Hin&Hne&_)]; [discriminate|].
    simpl in Hin. apply in_app_or in Hin.
    destruct Hin as [Hin|[E|[]]]; [|injection E; intros; congruence].
    destruct (wf_lookup s ok k W Hin) as (b0&Hb0&Hpn).
    simpl in Ho. rewrite lookup_insert_ne in Ho by auto. rewrite Hb0 in Ho. injection Ho as <-.
    assert (Hkn : k <> n).
    { apply lookupBlock_None in L. exact (proj1 (List.Forall_forall _ _) L _ Hin). }
    simpl. rewrite Hpn, filter_app, lookupBlock_app, filter_lookupBlock_None by exact L.
    rewrite filter_keep_all by (constructor; [simpl; auto|constructor]).
    simpl. rewrite Z.eqb_refl. reflexivity. }
  destruct Hev as (bl & -> & Hbl).
  destruct (checkBlockToLoad_frame (set_blocks s1 bl)) as (Bk&Sh&P&A&_).
  split; [reflexivity|]. rewrite Bk, P, A.
  split; [reflexivity|]. split; [reflexivity|]. split; [exact Hbl|].
  assert (Hc : heap (set_blocks s1 bl) !! c = Some (add_listener (newInfiniteBlock n (ps_of s)) OnPageLoaded)).
  { simpl. apply lookup_insert_eq. }
  destruct (shape_pn _ _ c Sh _ Hc) as (b'&Hb'&Es). exists b'. split; [exact Hb'|]. rewrite Es. reflexivity.
Qed.

Lemma createBlock_empty n s :
  blocks s = [] -> fst (createBlock n s) = nextObj s /\ blocks (exec (createBlock n) s) = [(n, nextObj s)].
Proof.
  intros E. unfold exec. rewrite createBlock_unfold. cbn [fst snd]. split; [reflexivity|].
  rewrite (proj1 (checkBlockToLoad_frame _)). cbv zeta.
  destruct (needToPurgeAt _ _); [|simpl; rewrite E; reflexivity].
  rewrite removeBlockFromCache_exec. simpl. rewrite E. simpl.
  rewrite lookup_insert_eq, Nat.eqb_refl. reflexivity.
Qed.

(** *** [getRow] *)

Lemma blockGetRow_spec o i s b :
  heap s !! o = Some b ->
  let '(r, s') := blockGetRow o i s in
  r = slotAt (ps_of s) b i /\ blocks s' = blocks s /\ cacheParams s' = cacheParams s /\
  heap s' !! o = Some (set_lastAccessed b (lastAccessedSequence s)).
Proof. intros Hb. unfold blockGetRow. rewrite Hb. simpl. rewrite lookup_insert_eq. auto. Qed.

Lemma blockGetRow_blocks o i s : blocks (exec (blockGetRow o i) s) = blocks s.
Proof. unfold exec, blockGetRow. destruct (heap s !! o); reflexivity. Qed.

Lemma getRow_create i s :
  getRow i false s =
  match blockAt s (i / ps_of s)%Z with
  | Some o => blockGetRow o i s
  | None => let (o, s1) := createBlock (i / ps_of s)%Z s in blockGetRow o i s1
  end.
Proof.
  cbv beta iota zeta delta [getRow bind gets getBlock].
  destruct (blockAt s (i / ps_of s)%Z); reflexivity.
Qed.

Lemma getRow_empty i s :
  blocks s = [] -> blocks (exec (getRow i false) s) = [((i / ps_of s)%Z, nextObj s)].
Proof.
  intros E. unfold exec. rewrite getRow_create.
  assert (B : blockAt s (i / ps_of s)%Z = None) by (unfold blockAt; rewrite E; reflexivity).
  rewrite B. destruct (createBlock_empty (i / ps_of s)%Z s E) as [F Bl].
  unfold exec in Bl. destruct (createBlock (i / ps_of s)%Z s) as [c s1]. simpl in F, Bl. subst c.
  pose proof (blockGetRow_blocks (nextObj s) i s1) as G. unfold exec in G. rewrite G. exact Bl.
Qed.

Lemma getRow_served i s :
  wf s ->
  let '(r, s') := getRow i false s in
  cacheParams s' = cacheParams s /\
  exists o b, lookupBlock (i / ps_of s)%Z (blocks s') = Some o /\ heap s' !! o = Some b /\
    pageNumber b = (i / ps_of s)%Z /\ r = slotAt (ps_of s) b i.
Proof.
  intros W. rewrite getRow_create.
  destruct (blockAt s (i / ps_of s)%Z) as [o|] eqn:B.
  - unfold blockAt in B. destruct (lookupBlock (i / ps_of s)%Z (blocks s)) as [o'|] eqn:L; [|discriminate].
    destruct (heap s !! o') as [b|] eqn:Hb; [|discriminate]. injection B as <-.
    pose proof (blockGetRow_spec o' i s b Hb) as G.
    destruct (blockGetRow o' i s) as [r s'] eqn:Eg. destruct G as (R&Bl&P&H).
    split; [exact P|]. exists o', (set_lastAccessed b (lastAccessedSequence s)).
    rewrite Bl. split; [exact L|]. split; [exact H|].
    destruct (wf_lookup s o' _ W (lookupBlock_In _ _ _ L)) as (b0&Hb0&Hpn).
    rewrite Hb in Hb0. injection Hb0 as <-. split; [exact Hpn|exact R].
  - pose proof (createBlock_wf (i / ps_of s)%Z s W B) as C.
    destruct (createBlock (i / ps_of s)%Z s) as [c s1] eqn:Ec.
    destruct C as (_&P1&_&L1&b&Hb&Sb).
    pose proof (blockGetRow_spec c i s1 b Hb) as G.
    destruct (blockGetRow c i s1) as [r s'] eqn:Eg. destruct G as (R&Bl&P&H).
    split; [rewrite P; exact P1|]. exists c, (set_lastAccessed b (lastAccessedSequence s1)).
    rewrite Bl. split; [exact L1|]. split; [exact H|].
    unfold shapeOf in Sb. injection Sb as Pn _. split; [exact Pn|].
    rewrite R. unfold ps_of. rewrite P1. reflexivity.
Qed.

(** *** Purging *)

Lemma purge_loop l : forall s,
  Forall (fun p => exists b, heap s !! snd p = Some b /\ pageNumber b = fst p) l ->
  exists bl, exec (mapM_ (fun p => removeBlockFromCache (Some (snd p))) l) s = set_blocks s bl /\
    forall q, In q bl -> In q (blocks s) /\ Forall (fun p => fst q <> fst p) l.
Proof.
  induction l as [|p l IH]; intros s F.
  - exists (blocks s). split; [destruct s; reflexivity|]. intros q Hq; split; auto.
  - inversion F as [|? ? (b&Hb&Hk) F']; subst.
    rewrite exec_mapM_cons, removeBlockFromCache_exec, Hb.
    destruct (IH (set_blocks s (filter (fun q => negb (fst q =? pageNumber b)%Z) (blocks s)))) as (bl&E&Hbl);
      [exact F'|].
    exists bl. rewrite E. split; [reflexivity|].
    intros q Hq. destruct (Hbl q Hq) as [Hin F2]. simpl in Hin.
    apply list_elem_of_In, list_elem_of_filter in Hin. destruct Hin as [Hneq Hin].
    split; [apply list_elem_of_In; exact Hin|]. constructor; [|exact F2].
    intros E'. rewrite E', <- Hk, Z.eqb_refl in Hneq. exact Hneq.
Qed.

Lemma dispatchModelUpdated_exec s :
  exec dispatchModelUpdated s = set_events s (events s ++ if active s then [ModelUpdated] else []).
Proof.
  unfold exec, dispatchModelUpdated, bind, isActive, gets.
  destruct (active s) eqn:A; [reflexivity|]. rewrite app_nil_r. destruct s; simpl in *; subst; reflexivity.
Qed.

Lemma purgeCache_exec s :
  wf s ->
  exec purgeCache s = set_events (set_blocks s []) (events s ++ if active s then [ModelUpdated] else []).
Proof.
  intros W.
  set (L := filter (fun p => bool_decide (is_Some (heap s !! snd p))) (blocks s)).
  assert (E0 : exec purgeCache s =
               exec dispatchModelUpdated (exec (mapM_ (fun p => removeBlockFromCache (Some (snd p))) L) s)).
  { unfold L, purgeCache, exec, bind, forEachBlockInOrder.
    destruct (mapM_ _ _ s). reflexivity. }
  rewrite E0.
  destruct (purge_loop L s) as (bl&E&Hbl).
  { apply List.Forall_forall. intros [k o] Hp.
    apply list_elem_of_In, list_elem_of_filter in Hp. destruct Hp as [_ Hp].
    apply list_elem_of_In in Hp. apply (wf_lookup s o k W Hp). }
  rewrite E, dispatchModelUpdated_exec.
  destruct bl as [|q bl]; [reflexivity|].
  exfalso. destruct (Hbl q (or_introl eq_refl)) as [Hin F].
  destruct q as [k o]. destruct (wf_lookup s o k W Hin) as (b&Hb&_).
  assert (HL : In (k, o) L).
  { apply list_elem_of_In, list_elem_of_filter. split; [|apply list_elem_of_In; exact Hin].
    simpl. rewrite Hb. exact I. }
  exact (proj1 (List.Forall_forall _ _) F _ HL eq_refl).
Qed.

(** *** A missing shift source *)

Lemma moveStep_missing page L k r s :
  (L <= r)%Z -> blockAt s ((r - k) / ps_of s)%Z = None ->
  getRow (r - k) true s = (None, s) /\
  exec (moveStep page L k r) s = exec (setDirty page) (exec (setBlankRowNode page r) s).
Proof.
  intros Hr B.
  pose proof (getRow_nocreate (r - k) s) as G.
  destruct (getRow (r - k)%Z true s) as [x s0] eqn:Eg. destruct G as (_&_&G). destruct (G B) as [-> ->].
  split; [reflexivity|].
  unfold moveStep. rewrite (proj2 (Z.ltb_ge _ _) Hr). unfold exec at 1, bind at 1. rewrite Eg.
  unfold bind. unfold exec. destruct (setBlankRowNode page r s). reflexivity.
Qed.

Lemma blank_dirty_heap page r s b :
  heap s !! page = Some b ->
  let s' := exec (setDirty page) (exec (setBlankRowNode page r) s) in
  heap s' !! page = Some (set_dirty (set_slot (ps_of s) b r Blank)) /\
  blocks s' = blocks s /\ events s' = events s /\ cacheParams s' = cacheParams s.
Proof.
  intros Hb. unfold exec, setDirty, setBlankRowNode, modifyBlock, logAccess, modify, bind, gets.
  simpl. rewrite Hb. simpl. rewrite lookup_insert_eq. simpl. rewrite lookup_insert_eq. auto.
Qed.

Lemma slotAt_set_slot_eq ps b r x :
  (getStartRow ps b <= r < getStartRow ps b + Z.of_nat (length (rowNodes b)))%Z ->
  slotAt ps (set_dirty (set_slot ps b r x)) r = Some x.
Proof.
  intros Hr. unfold slotAt, set_dirty, set_slot, getStartRow in *. simpl.
  rewrite (proj2 (Z.ltb_ge _ _)) by lia. apply list_lookup_insert_eq. lia.
Qed.

Lemma slotAt_set_slot_ne ps b r r' x :
  (getStartRow ps b <= r)%Z -> r' <> r ->
  slotAt ps (set_dirty (set_slot ps b r x)) r' = slotAt ps b r'.
Proof.
  intros Hr Hne. unfold slotAt, set_dirty, set_slot, getStartRow in *. simpl.
  destruct (r' - pageNumber b * ps <? 0)%Z eqn:E; [reflexivity|]. apply Z.ltb_ge in E.
  apply list_lookup_insert_ne. lia.
Qed.

(** *** Load completion *)

Lemma allocNodes_lc items : forall s, loadCallbacks (snd (allocNodes items s)) = loadCallbacks s.
Proof.
  induction items as [|it items IH]; intros s; [reflexivity|].
  cbn [allocNodes]. unfold bind, gets, modify, ret.
  specialize (IH (set_nodes s (S (nextNodeId s)) (<[nextNodeId s := it]> (nodeData s)))).
  destruct (allocNodes items _). exact IH.
Qed.

Lemma loadComplete_callbacks o res s b :
  heap s !! o = Some b -> listeners b = [OnPageLoaded] ->
  loadCallbacks (exec (loadComplete o res) s) = loadCallbacks s ++ [o].
Proof.
  intros Hb Hl. destruct res as [items|]; unfold exec, loadComplete; rewrite Hb, Hl; unfold bind.
  - pose proof (allocNodes_lc items s) as A. destruct (allocNodes items s) as [ids s4]. simpl in A.
    unfold modifyBlock, modify, ret. cbn [fireListeners mapM_]. unfold onPageLoaded, modify, bind, ret.
    destruct (heap s4 !! o); simpl; rewrite A; reflexivity.
  - unfold modifyBlock, modify, ret. cbn [fireListeners mapM_]. unfold onPageLoaded, modify, bind, ret.
    destruct (heap s !! o); reflexivity.
Qed.

Lemma removeBlockFromCache_only_blocks x s :
  exists bl, exec (removeBlockFromCache x) s = set_blocks s bl /\ incl bl (blocks s).
Proof.
  rewrite removeBlockFromCache_exec.
  destruct x as [o|]; [destruct (heap s !! o) as [b|]|].
  - eexists; split; [reflexivity|]. intros q Hq.
    apply list_elem_of_In, list_elem_of_filter in Hq. apply list_elem_of_In, Hq.
  - exists (blocks s). split; [destruct s; reflexivity|apply incl_refl].
  - exists (blocks s). split; [destruct s; reflexivity|apply incl_refl].
Qed.

Lemma createBlock_listener n s :
  let '(c, s1) := createBlock n s in
  exists b, heap s1 !! c = Some b /\ listeners b = [OnPageLoaded].
Proof.
  rewrite createBlock_unfold. cbv beta iota zeta.
  set (c := nextObj s).
  set (s1 := set_blocks (set_heap (set_nextObj s (S c))
               (<[c := add_listener (newInfiniteBlock n (ps_of s)) OnPageLoaded]> (heap s)))
               (blocks s ++ [(n, c)])).
  set (ev := if needToPurgeAt s (length (blocks s) + 1)
             then exec (removeBlockFromCache (lruScan (heap s1) c (blocks s1) None)) s1 else s1).
  assert (He : heap ev = heap s1).
  { unfold ev. destruct (needToPurgeAt _ _); [|reflexivity].
    destruct (removeBlockFromCache_only_blocks (lruScan (heap s1) c (blocks s1) None) s1) as (bl&->&_).
    reflexivity. }
  destruct (checkBlockToLoad_frame ev) as (_&Sh&_).
  assert (Hc : heap ev !! c = Some (add_listener (newInfiniteBlock n (ps_of s)) OnPageLoaded)).
  { rewrite He. simpl. apply lookup_insert_eq. }
  destruct (shape_pn _ _ c Sh _ Hc) as (b'&Hb'&Es). exists b'. split; [exact Hb'|].
  unfold shapeOf in Es. injection Es as _ ->. reflexivity.
Qed.

(** *** Row contents during an insertion *)

Lemma exec_bind {A B} (m : M A) (k : A -> M B) t :
  exec (bind m k) t = exec (k (fst (m t))) (exec m t).
Proof. unfold exec, bind. destruct (m t). reflexivity. Qed.

Lemma exec_bind_ret {A B} (m : M A) (f : A -> B) t :
  exec (bind m (fun x => ret (f x))) t = exec m t.
Proof. unfold exec, bind, ret. destruct (m t). reflexivity. Qed.

Lemma exec_concatMapM_cons {A B} (f : A -> M (list B)) x l t :
  exec (concatMapM f (x :: l)) t = exec (concatMapM f l) (exec (f x) t).
Proof.
  unfold exec. cbn [concatMapM]. unfold bind, ret.
  destruct (f x t) as [a t1]. cbn [fst snd]. destruct (concatMapM f l t1). reflexivity.
Qed.

Lemma getRow_true_value p t : fst (getRow p true t) = rowAt t p.
Proof.
  cbv beta iota zeta delta [getRow bind gets getBlock ret]. unfold rowAt.
  destruct (blockAt t (p / ps_of t)%Z) as [o|]; [|reflexivity].
  unfold blockGetRow. destruct (heap t !! o); reflexivity.
Qed.

Lemma getRow_true_rows p t :
  let t1 := exec (getRow p true) t in
  blocks t1 = blocks t /\ cacheParams t1 = cacheParams t /\
  (fun b => (pageNumber b, rowNodes b)) <$> heap t1 =
    (fun b => (pageNumber b, rowNodes b)) <$> heap t.
Proof.
  cbv beta iota zeta delta [getRow bind gets getBlock ret exec].
  destruct (blockAt t (p / ps_of t)%Z) as [o|]; [|repeat split].
  unfold blockGetRow. destruct (heap t !! o) as [b|] eqn:Hb; [|repeat split].
  simpl. split; [reflexivity|]. split; [reflexivity|].
  apply (fmap_insert_same _ _ _ b); [exact Hb|reflexivity].
Qed.

Lemma rowAt_ext t t' :
  blocks t' = blocks t -> heap t' = heap t -> cacheParams t' = cacheParams t ->
  forall p, rowAt t' p = rowAt t p.
Proof. intros Hb Hh Hc p. unfold rowAt, blockAt, ps_of. rewrite Hb, Hh, Hc. reflexivity. Qed.

(** A step that keeps every block's page number and slots keeps every row. *)
Lemma rowAt_same_rows t t' :
  blocks t' = blocks t -> cacheParams t' = cacheParams t ->
  (fun b => (pageNumber b, rowNodes b)) <$> heap t' =
    (fun b => (pageNumber b, rowNodes b)) <$> heap t ->
  (forall p, rowAt t' p = rowAt t p) /\ (rowsSized t -> rowsSized t').
Proof.
  intros Hb Hc Hr.
  assert (E : forall o, match heap t' !! o, heap t !! o with
                        | Some b', Some b => pageNumber b' = pageNumber b /\ rowNodes b' = rowNodes b
                        | None, None => True
                        | _, _ => False
                        end).
  { intros o.
    assert (E : ((fun b => (pageNumber b, rowNodes b)) <$> heap t') !! o =
                ((fun b => (pageNumber b, rowNodes b)) <$> heap t) !! o) by (rewrite Hr; reflexivity).
    rewrite !lookup_fmap in E.
    destruct (heap t' !! o), (heap t !! o); simpl in E; try discriminate; [|exact I].
    injection E as E1 E2. auto. }
  assert (B : forall n, blockAt t' n = blockAt t n).
  { intros n. unfold blockAt. rewrite Hb. destruct (lookupBlock n (blocks t)) as [o|]; [|reflexivity].
    specialize (E o). destruct (heap t' !! o), (heap t !! o); try contradiction; reflexivity. }
  assert (Ps : ps_of t' = ps_of t) by (unfold ps_of; rewrite Hc; reflexivity).
  split.
  - intros p. unfold rowAt. rewrite B, Ps.
    destruct (blockAt t (p / ps_of t)%Z) as [o|]; [|reflexivity].
    specialize (E o). destruct (heap t' !! o) as [b'|], (heap t !! o) as [b|];
      try contradiction; [|reflexivity].
    destruct E as [E1 E2]. unfold slotAt, getStartRow. rewrite E1, E2. reflexivity.
  - intros L o b' Hb'. specialize (E o). rewrite Hb' in E. rewrite Ps.
    destruct (heap t !! o) as [b|] eqn:Hb0; [|contradiction].
    destruct E as [_ E2]. rewrite E2. exact (L o b Hb0).
Qed.

Lemma row_in_page ps n r :
  (0 < ps)%Z -> (n * ps <= r < n * ps + ps)%Z -> (r / ps)%Z = n.
Proof.
  intros Hps Hr. symmetry. apply (Z.div_unique r ps n (r - n * ps)); [left; lia|ring].
Qed.

(** Writing slot [r] of the block mapped to [r]'s page changes the row at
    [r] and no other row. *)
Lemma rowAt_set_slot t o b r x :
  (0 < ps_of t)%Z -> rowsSized t -> heap t !! o = Some b ->
  blockAt t (r / ps_of t)%Z = Some o -> pageNumber b = (r / ps_of t)%Z ->
  let t2 := set_heap t (<[o := set_slot (ps_of t) b r x]> (heap t)) in
  rowAt t2 r = Some x /\ (forall p, p <> r -> rowAt t2 p = rowAt t p) /\ rowsSized t2.
Proof.
  intros Hps L Ho B Pn t2.
  assert (B2 : forall n, blockAt t2 n = blockAt t n).
  { intros n. unfold t2, blockAt. cbn [blocks heap set_heap].
    destruct (lookupBlock n (blocks t)) as [o'|]; [|reflexivity].
    destruct (decide (o = o')) as [<-|Ne]; [rewrite lookup_insert_eq, Ho; reflexivity|].
    rewrite lookup_insert_ne by exact Ne. reflexivity. }
  assert (Ps : ps_of t2 = ps_of t) by reflexivity.
  assert (Hlen : length (rowNodes b) = Z.to_nat (ps_of t)) by exact (L o b Ho).
  assert (Hrng : (pageNumber b * ps_of t <= r < pageNumber b * ps_of t + ps_of t)%Z).
  { rewrite Pn. pose proof (Z.mod_pos_bound r (ps_of t) Hps).
    pose proof (Z.div_mod r (ps_of t) ltac:(lia)). lia. }
  split; [|split].
  - unfold rowAt. rewrite B2, Ps, B. unfold t2. cbn [heap set_heap]. rewrite lookup_insert_eq.
    unfold slotAt, set_slot, getStartRow. cbn [pageNumber rowNodes].
    rewrite (proj2 (Z.ltb_ge _ _)) by lia.
    apply list_lookup_insert_eq. lia.
  - intros p Hp. unfold rowAt. rewrite B2, Ps.
    destruct (blockAt t (p / ps_of t)%Z) as [o'|]; [|reflexivity].
    unfold t2. cbn [heap set_heap].
    destruct (decide (o = o')) as [<-|Ne].
    + rewrite lookup_insert_eq, Ho. unfold slotAt, set_slot, getStartRow. cbn [pageNumber rowNodes].
      destruct (p - pageNumber b * ps_of t <? 0)%Z eqn:E; [reflexivity|]. apply Z.ltb_ge in E.
      apply list_lookup_insert_ne. lia.
    + rewrite lookup_insert_ne by exact Ne. reflexivity.
  - intros o' b'. rewrite Ps. unfold t2. cbn [heap set_heap].
    destruct (decide (o = o')) as [<-|Ne].
    + rewrite lookup_insert_eq. intros [= <-]. cbn [rowNodes set_slot].
      rewrite length_insert. exact Hlen.
    + rewrite lookup_insert_ne by exact Ne. apply L.
Qed.

Lemma rowAt_write t t' o b r x :
  (0 < ps_of t)%Z -> rowsSized t ->
  blocks t' = blocks t -> cacheParams t' = cacheParams t ->
  heap t !! o = Some b -> blockAt t (r / ps_of t)%Z = Some o -> pageNumber b = (r / ps_of t)%Z ->
  (fun b => (pageNumber b, rowNodes b)) <$> heap t' =
    (fun b => (pageNumber b, rowNodes b)) <$> <[o := set_slot (ps_of t) b r x]> (heap t) ->
  rowAt t' r = Some x /\ (forall p, p <> r -> rowAt t' p = rowAt t p) /\ rowsSized t'.
Proof.
  intros Hps L Hb Hc Ho B Pn Hr.
  destruct (rowAt_set_slot t o b r x Hps L Ho B Pn) as (W1&W2&W3).
  destruct (rowAt_same_rows (set_heap t (<[o := set_slot (ps_of t) b r x]> (heap t))) t' Hb Hc Hr)
    as [R S].
  split; [|split].
  - rewrite R. exact W1.
  - intros p Hp. rewrite R. exact (W2 p Hp).
  - exact (S W3).
Qed.

Lemma setRowNode_heap o r x t b :
  heap t !! o = Some b ->
  let t' := exec (setRowNode o r x) t in
  blocks t' = blocks t /\ cacheParams t' = cacheParams t /\
  heap t' = <[o := set_slot (ps_of t) b r x]> (heap t).
Proof. intros Hb. unfold exec, setRowNode, bind, gets, modifyBlock, modify, logAccess. simpl. rewrite Hb. repeat split. Qed.

Lemma setBlank_dirty_rows o r t b :
  heap t !! o = Some b ->
  let t' := exec (setDirty o) (exec (setBlankRowNode o r) t) in
  blocks t' = blocks t /\ cacheParams t' = cacheParams t /\
  (fun b => (pageNumber b, rowNodes b)) <$> heap t' =
    (fun b => (pageNumber b, rowNodes b)) <$> <[o := set_slot (ps_of t) b r Blank]> (heap t).
Proof.
  intros Hb. unfold exec, setDirty, setBlankRowNode, modifyBlock, logAccess, modify, bind, gets.
  simpl. rewrite Hb. simpl. rewrite lookup_insert_eq. simpl. rewrite insert_insert_eq.
  split; [reflexivity|]. split; [reflexivity|]. rewrite !fmap_insert. reflexivity.
Qed.

Lemma setNewData_heap o r it t b :
  heap t !! o = Some b ->
  let t' := exec (setNewData o r it) t in
  blocks t' = blocks t /\ cacheParams t' = cacheParams t /\
  heap t' = <[o := set_slot (ps_of t) b r (Node (nextNodeId t))]> (heap t).
Proof.
  intros Hb. unfold exec, setNewData, bind, gets, modifyBlock, modify, logAccess, ret.
  simpl. rewrite Hb. repeat split.
Qed.

Lemma moveStep_Fr page L k r t : Fr t (exec (moveStep page L k r) t).
Proof.
  pose proof (moveStep_spec page L k r t) as H. unfold exec.
  destruct (moveStep page L k r t). destruct H as [[F _] _]. exact F.
Qed.

Lemma insertCallback_Fr idx items o t : Fr t (exec (insertCallback idx items o) t).
Proof.
  pose proof (insertCallback_spec idx items o t) as H. unfold exec.
  destruct (insertCallback idx items o t). destruct H as [F _]. exact F.
Qed.

Lemma setNewData_Fr o r it t : Fr t (exec (setNewData o r it) t).
Proof.
  pose proof (setNewData_spec o r it t) as H. unfold exec.
  destruct (setNewData o r it t). destruct H as [F _]. exact F.
Qed.

Lemma pn_heap t o n : pnOf t !! o = Some n -> exists b, heap t !! o = Some b /\ pageNumber b = n.
Proof.
  unfold pnOf. rewrite lookup_fmap. destruct (heap t !! o) as [b|]; [|discriminate].
  intros [= <-]. eauto.
Qed.

(** One iteration of [moveItemsDown] at a row [r >= indexOfLastRowToMove]
    of page [n]: the row at [r] becomes the row read at [r - k] (blank if
    absent); no other row changes. *)
Lemma moveStep_rows page L k r u n :
  (0 < ps_of u)%Z -> rowsSized u -> (L <= r)%Z ->
  blockAt u n = Some page -> pnOf u !! page = Some n -> (r / ps_of u)%Z = n ->
  let u' := exec (moveStep page L k r) u in
  rowAt u' r = Some (match rowAt u (r - k) with Some x => x | None => Blank end) /\
  (forall p, p <> r -> rowAt u' p = rowAt u p) /\ rowsSized u'.
Proof.
  intros Hps Ls Hr B Pn Hn u'. unfold u', moveStep.
  rewrite (proj2 (Z.ltb_ge _ _) Hr), exec_bind, getRow_true_value.
  pose proof (getRow_true_rows (r - k) u) as G.
  pose proof (getRow_nocreate (r - k) u) as K.
  assert (F1 : Fr u (exec (getRow (r - k) true) u)).
  { unfold exec. destruct (getRow (r - k)%Z true u). destruct K as [[F _] _]. exact F. }
  set (u1 := exec (getRow (r - k) true) u) in *.
  destruct G as (Bl&Cp&Rw).
  destruct (rowAt_same_rows u u1 Bl Cp Rw) as [R1 L1]. specialize (L1 Ls).
  assert (Ps1 : ps_of u1 = ps_of u) by exact (ps_Fr _ _ F1).
  assert (B1 : blockAt u1 n = Some page) by (rewrite (blockAt_Fr u u1 n F1); exact B).
  assert (Pn1 : pnOf u1 !! page = Some n) by (rewrite (pn_Fr u u1 F1); exact Pn).
  destruct (pn_heap u1 page n Pn1) as (b1&Hb1&Pb1).
  assert (Hps1 : (0 < ps_of u1)%Z) by (rewrite Ps1; exact Hps).
  assert (B1' : blockAt u1 (r / ps_of u1)%Z = Some page) by (rewrite Ps1, Hn; exact B1).
  assert (Pb1' : pageNumber b1 = (r / ps_of u1)%Z) by (rewrite Ps1, Hn; exact Pb1).
  destruct (rowAt u (r - k)%Z) as [x|].
  - destruct (setRowNode_heap page r x u1 b1 Hb1) as (Bl2&Cp2&H2).
    destruct (rowAt_write u1 (exec (setRowNode page r x) u1) page b1 r x Hps1 L1 Bl2 Cp2 Hb1 B1' Pb1')
      as (W1&W2&W3); [rewrite H2; reflexivity|].
    split; [exact W1|]. split; [|exact W3].
    intros p Hp. rewrite <- R1. exact (W2 p Hp).
  - cbv iota beta. rewrite exec_bind.
    destruct (setBlank_dirty_rows page r u1 b1 Hb1) as (Bl2&Cp2&H2).
    destruct (rowAt_write u1 (exec (setDirty page) (exec (setBlankRowNode page r) u1)) page b1 r Blank
                Hps1 L1 Bl2 Cp2 Hb1 B1' Pb1' H2) as (W1&W2&W3).
    split; [exact W1|]. split; [|exact W3].
    intros p Hp. rewrite <- R1. exact (W2 p Hp).
Qed.

(** The loop of [moveItemsDown] over rows [hi, hi - 1, ..., hi - m + 1]
    of page [n]: each visited row [r >= indexOfLastRowToMove] ends up
    holding the row found at [r - k] before the loop, as rows are visited
    downwards and [r - k <= r]. *)
Lemma moveLoop_rows page L k n (Hk : (0 <= k)%Z) : forall m hi u,
  (0 < ps_of u)%Z -> rowsSized u -> blockAt u n = Some page -> pnOf u !! page = Some n ->
  (n * ps_of u <= hi - Z.of_nat m + 1)%Z -> (hi < n * ps_of u + ps_of u)%Z ->
  let u' := exec (mapM_ (moveStep page L k) (downFrom hi m)) u in
  Fr u u' /\ rowsSized u' /\
  (forall p, (p < hi - Z.of_nat m + 1 \/ hi < p)%Z -> rowAt u' p = rowAt u p) /\
  (forall r, (hi - Z.of_nat m + 1 <= r <= hi)%Z -> (L <= r)%Z ->
     rowAt u' r = Some (match rowAt u (r - k) with Some x => x | None => Blank end)).
Proof.
  induction m as [|m IH]; intros hi u Hps Ls B Pn Lo Hi u'.
  - split; [apply Fr_refl|]. split; [exact Ls|]. split; [reflexivity|]. intros r Hr. lia.
  - unfold u'. cbn [downFrom mapM_]. rewrite exec_bind. cbv beta.
    set (u1 := exec (moveStep page L k hi) u).
    assert (F1 : Fr u u1) by apply moveStep_Fr.
    assert (Ps1 : ps_of u1 = ps_of u) by exact (ps_Fr _ _ F1).
    assert (Step : rowsSized u1 /\ (forall p, p <> hi -> rowAt u1 p = rowAt u p) /\
                   ((L <= hi)%Z -> rowAt u1 hi =
                      Some (match rowAt u (hi - k) with Some x => x | None => Blank end))).
    { destruct (Z.ltb_spec hi L) as [Lt|Ge].
      - assert (E : u1 = u) by (unfold u1, exec, moveStep; rewrite (proj2 (Z.ltb_lt _ _) Lt); reflexivity).
        rewrite E. split; [exact Ls|]. split; [reflexivity|]. lia.
      - destruct (moveStep_rows page L k hi u n Hps Ls Ge B Pn) as (W1&W2&W3);
          [apply row_in_page; [exact Hps|lia]|].
        split; [exact W3|]. split; [exact W2|]. intros _. exact W1. }
    destruct Step as (Ls1&Fr1&V1).
    destruct (IH (hi - 1)%Z u1) as (F2&Ls2&Fr2&V2).
    + rewrite Ps1. exact Hps.
    + exact Ls1.
    + rewrite (blockAt_Fr _ _ _ F1). exact B.
    + rewrite (pn_Fr _ _ F1). exact Pn.
    + rewrite Ps1. lia.
    + rewrite Ps1. lia.
    + split; [exact (Fr_trans _ _ _ F1 F2)|]. split; [exact Ls2|]. split.
      * intros p Hp. rewrite Fr2 by lia. apply Fr1. lia.
      * intros r Hr HL. destruct (Z.eq_dec r hi) as [->|Ne].
        -- rewrite Fr2 by lia. exact (V1 HL).
        -- rewrite V2 by lia. rewrite Fr1 by lia. reflexivity.
Qed.

(** The loop of [insertItems] over items [index..]: it writes only rows
    [idx + index ..] inside the page's range. *)
Lemma insertItemsFrom_rows o n st en idx items : forall index t,
  (0 < ps_of t)%Z -> rowsSized t -> blockAt t n = Some o -> pnOf t !! o = Some n ->
  st = (n * ps_of t)%Z -> en = (n * ps_of t + ps_of t)%Z ->
  let t' := exec (insertItemsFrom o st en idx index items) t in
  Fr t t' /\ rowsSized t' /\
  forall p, (p < st \/ en <= p \/ p < idx + index \/ idx + index + Z.of_nat (length items) <= p)%Z ->
    rowAt t' p = rowAt t p.
Proof.
  induction items as [|it rest IH]; intros index t Hps Ls B Pn Est Een t'.
  - split; [apply Fr_refl|]. split; [exact Ls|]. reflexivity.
  - unfold t'. cbn [insertItemsFrom]. rewrite exec_bind. cbv beta. rewrite exec_bind_ret.
    set (t1 := exec (if (st <=? idx + index)%Z && (idx + index <? en)%Z
                     then let* newRowNode := setNewData o (idx + index) it in ret [newRowNode]
                     else ret []) t).
    assert (Step : Fr t t1 /\ rowsSized t1 /\
                   forall p, (p < st \/ en <= p \/ p <> idx + index)%Z -> rowAt t1 p = rowAt t p).
    { unfold t1. destruct ((st <=? idx + index)%Z && (idx + index <? en)%Z) eqn:C.
      - rewrite exec_bind_ret. apply andb_prop in C. destruct C as [C1 C2].
        apply Z.leb_le in C1. apply Z.ltb_lt in C2.
        destruct (pn_heap t o n Pn) as (b&Hb&Pb).
        destruct (setNewData_heap o (idx + index) it t b Hb) as (Bl&Cp&H).
        assert (Hn : ((idx + index) / ps_of t)%Z = n) by (apply row_in_page; [exact Hps|lia]).
        destruct (rowAt_write t (exec (setNewData o (idx + index) it) t) o b (idx + index)%Z
                    (Node (nextNodeId t)) Hps Ls Bl Cp Hb) as (_&W2&W3);
          [rewrite Hn; exact B|rewrite Hn; exact Pb|rewrite H; reflexivity|].
        split; [apply setNewData_Fr|]. split; [exact W3|]. intros p Hp. apply W2. lia.
      - split; [apply Fr_refl|]. split; [exact Ls|]. reflexivity. }
    destruct Step as (F1&Ls1&R1).
    assert (Ps1 : ps_of t1 = ps_of t) by exact (ps_Fr _ _ F1).
    destruct (IH (index + 1)%Z t1) as (F2&Ls2&R2).
    + rewrite Ps1. exact Hps.
    + exact Ls1.
    + rewrite (blockAt_Fr _ _ _ F1). exact B.
    + rewrite (pn_Fr _ _ F1). exact Pn.
    + rewrite Ps1. exact Est.
    + rewrite Ps1. exact Een.
    + split; [exact (Fr_trans _ _ _ F1 F2)|]. split; [exact Ls2|].
      intros p Hp. cbn [length] in Hp. rewrite R2 by lia. apply R1. lia.
Qed.

Lemma insertCallback_exec idx items o t b :
  heap t !! o = Some b -> (getEndRow (ps_of t) b <=? idx)%Z = false ->
  exec (insertCallback idx items o) t =
    exec (insertItems o idx items) (exec (moveItemsDown o idx (Z.of_nat (length items))) t).
Proof.
  intros Hb E. unfold exec, insertCallback, bind. rewrite Hb, E.
  destruct (moveItemsDown o idx (Z.of_nat (length items)) t). reflexivity.
Qed.

(** The callback of [insertItemsAtIndex] on the block of page [n]: each
    row [r >= idx + k] of the page becomes the row found at [r - k] before
    the callback; rows outside the page are unchanged. *)
Lemma insertCallback_rows idx items o n t :
  (0 < ps_of t)%Z -> rowsSized t -> blockAt t n = Some o -> pnOf t !! o = Some n ->
  let k := Z.of_nat (length items) in
  let t' := exec (insertCallback idx items o) t in
  rowsSized t' /\
  (forall p, (p < n * ps_of t \/ n * ps_of t + ps_of t <= p)%Z -> rowAt t' p = rowAt t p) /\
  (forall r, (n * ps_of t <= r < n * ps_of t + ps_of t)%Z -> (idx + k <= r)%Z ->
     rowAt t' r = Some (match rowAt t (r - k) with Some x => x | None => Blank end)).
Proof.
  intros Hps Ls B Pn k t'.
  destruct (pn_heap t o n Pn) as (b&Hb&Pb).
  assert (Hen : getEndRow (ps_of t) b = (n * ps_of t + ps_of t)%Z)
    by (unfold getEndRow, getStartRow; rewrite Pb; reflexivity).
  destruct (getEndRow (ps_of t) b <=? idx)%Z eqn:E.
  - assert (Et : t' = t) by (unfold t', exec, insertCallback; rewrite Hb, E; reflexivity).
    rewrite Et. split; [exact Ls|]. split; [reflexivity|].
    apply Z.leb_le in E. intros r Hr Hr2. unfold k in Hr2. lia.
  - unfold t'. rewrite (insertCallback_exec idx items o t b Hb E).
    set (u := exec (moveItemsDown o idx (Z.of_nat (length items))) t).
    assert (Hk : (0 <= k)%Z) by (unfold k; lia).
    destruct (moveLoop_rows o (idx + k)%Z k n Hk (Z.to_nat (ps_of t)) (n * ps_of t + ps_of t - 1)%Z t
                Hps Ls B Pn) as (F1&Ls1&Fr1&V1); [lia|lia|].
    assert (Eu : u = exec (mapM_ (moveStep o (idx + k) k)
                             (downFrom (n * ps_of t + ps_of t - 1) (Z.to_nat (ps_of t)))) t).
    { unfold u, exec, moveItemsDown. rewrite Hb. rewrite Hen. unfold getStartRow. rewrite Pb.
      replace (n * ps_of t + ps_of t - n * ps_of t)%Z with (ps_of t) by ring. reflexivity. }
    rewrite <- Eu in F1, Ls1, Fr1, V1.
    assert (Ps1 : ps_of u = ps_of t) by exact (ps_Fr _ _ F1).
    assert (Pn1 : pnOf u !! o = Some n) by (rewrite (pn_Fr _ _ F1); exact Pn).
    destruct (pn_heap u o n Pn1) as (bu&Hbu&Pbu).
    destruct (insertItemsFrom_rows o n (n * ps_of t) (n * ps_of t + ps_of t) idx items 0 u)
      as (_&Ls2&Fr2).
    + rewrite Ps1. exact Hps.
    + exact Ls1.
    + rewrite (blockAt_Fr _ _ _ F1). exact B.
    + exact Pn1.
    + rewrite Ps1. reflexivity.
    + rewrite Ps1. reflexivity.
    + assert (Ei : exec (insertItems o idx items) u =
                   exec (insertItemsFrom o (n * ps_of t) (n * ps_of t + ps_of t) idx 0 items) u).
      { unfold exec at 1, insertItems. rewrite Hbu. unfold getEndRow, getStartRow.
        rewrite Pbu, Ps1. reflexivity. }
      rewrite Ei. split; [exact Ls2|]. split.
      * intros p Hp. rewrite Fr2 by lia. apply Fr1. lia.
      * intros r Hr Hr2. rewrite Fr2 by (unfold k in Hr2; lia). apply V1; lia.
Qed.

Lemma lookupBlock_nodup_In n o l : NoDup (map fst l) -> In (n, o) l -> lookupBlock n l = Some o.
Proof.
  induction l as [|[k o'] l IH]; intros Nd Hin; [destruct Hin|].
  cbn [map fst] in Nd. apply NoDup_cons in Nd. destruct Nd as [Nk Nd].
  cbn [lookupBlock]. destruct Hin as [[= -> ->]|Hin].
  - rewrite Z.eqb_refl. reflexivity.
  - destruct (Z.eqb_spec k n) as [->|Ne]; [|exact (IH Nd Hin)].
    exfalso. apply Nk. apply list_elem_of_In. apply (in_map fst l (n, o) Hin).
Qed.

(** The callbacks over the blocks in descending page order: every row
    [r >= idx + k] of a visited page ends up holding the row found at
    [r - k] in the state before the operation, because pages are visited
    from the top down and each callback writes only rows of its own page. *)
Lemma insertLoop_rows idx items s (order : list (Z * nat)) : forall t,
  (0 < ps_of s)%Z -> Fr s t -> rowsSized t ->
  StronglySorted (fun p q => (fst q < fst p)%Z) order ->
  Forall (fun q => blockAt s (fst q) = Some (snd q) /\ pnOf s !! snd q = Some (fst q)) order ->
  (forall q p, In q order -> (p < fst q * ps_of s + ps_of s)%Z -> rowAt t p = rowAt s p) ->
  let k := Z.of_nat (length items) in
  let t' := exec (concatMapM (fun q => insertCallback idx items (snd q)) order) t in
  Fr s t' /\ rowsSized t' /\
  (forall p, Forall (fun q => p < fst q * ps_of s \/ fst q * ps_of s + ps_of s <= p)%Z order ->
     rowAt t' p = rowAt t p) /\
  (forall q r, In q order -> (fst q * ps_of s <= r < fst q * ps_of s + ps_of s)%Z ->
     (idx + k <= r)%Z ->
     rowAt t' r = Some (match rowAt s (r - k) with Some x => x | None => Blank end)).
Proof.
  induction order as [|q0 order IH]; intros t Hps F Ls St Fa Hy k t'.
  - split; [exact F|]. split; [exact Ls|]. split; [reflexivity|]. intros q r [].
  - unfold t'. rewrite exec_concatMapM_cons.
    apply StronglySorted_inv in St. destruct St as [St Lt].
    apply Forall_cons in Fa. destruct Fa as [[Bq Pq] Fa].
    assert (Ps : ps_of t = ps_of s) by exact (ps_Fr _ _ F).
    set (t1 := exec (insertCallback idx items (snd q0)) t).
    destruct (insertCallback_rows idx items (snd q0) (fst q0) t) as (Ls1&Fr1&V1).
    + rewrite Ps. exact Hps.
    + exact Ls.
    + rewrite (blockAt_Fr _ _ _ F). exact Bq.
    + rewrite (pn_Fr _ _ F). exact Pq.
    + fold t1 in Ls1, Fr1, V1. rewrite Ps in Fr1, V1.
      assert (F1 : Fr s t1) by exact (Fr_trans _ _ _ F (insertCallback_Fr idx items (snd q0) t)).
      assert (Below : forall q, In q order -> (fst q * ps_of s + ps_of s <= fst q0 * ps_of s)%Z).
      { intros q Hq. pose proof (proj1 (List.Forall_forall _ _) Lt q Hq) as Hlt. simpl in Hlt. nia. }
      destruct (IH t1 Hps F1 Ls1 St Fa) as (F2&Ls2&Fr2&V2).
      * intros q p Hq Hp. pose proof (Below q Hq).
        rewrite Fr1 by lia. apply (Hy q0 p (or_introl eq_refl)). lia.
      * split; [exact F2|]. split; [exact Ls2|]. split.
        -- intros p Hp. apply Forall_cons in Hp. destruct Hp as [Hp0 Hp].
           rewrite (Fr2 p Hp). apply Fr1. exact Hp0.
        -- intros q r [<-|Hq] Hr Hr2.
           ++ assert (Out : Forall (fun q => r < fst q * ps_of s \/ fst q * ps_of s + ps_of s <= r)%Z order).
              { apply List.Forall_forall. intros q Hq. pose proof (Below q Hq). lia. }
              rewrite (Fr2 r Out). rewrite (V1 r Hr Hr2).
              unfold k in *.
              rewrite (Hy q0 (r - Z.of_nat (length items))%Z (or_introl eq_refl)) by lia. reflexivity.
           ++ exact (V2 q r Hq Hr Hr2).
Qed.

Lemma insertItemsAtIndex_rows_tail idx items s p :
  rowAt (exec (insertItemsAtIndex idx items) s) p =
  rowAt (exec (concatMapM (fun q => insertCallback idx items (snd q)) (blocksInReverseOrder s)) s) p.
Proof.
  unfold insertItemsAtIndex, exec, bind, gets. cbv beta iota.
  destruct (concatMapM _ _ s) as [nn s1]. cbn [snd].
  unfold isMaxRowFound, getVirtualRowCount, hack_setVirtualRowCount, dispatchModelUpdated,
    isActive, dispatchEvent, modify, gets, ret, bind.
  destruct (maxRowFound s1); simpl; [destruct (active _)|destruct (active s1)];
    apply rowAt_ext; reflexivity.
Qed.

(** ** Properties of the specification *)

Ltac solve_wf := split; [apply (bool_decide_unpack _); vm_compute; exact I | repeat constructor].

(** In the two-block test state every block holds [pageSize] slots. *)
Lemma c2State_rowsSized : rowsSized (c2State None true true 4).
Proof.
  intros o b H. unfold c2State in H. cbn [heap] in H.
  apply lookup_insert_Some in H as [[_ <-]|[_ H]]; [reflexivity|].
  apply lookup_insert_Some in H as [[_ <-]|[_ H]]; [reflexivity|].
  rewrite lookup_empty in H. discriminate.
Qed.

(** C1: [insertItemsAtIndex(idx, items)] visits the resident blocks in
    strictly descending block-number order (a permutation of the block
    map); its reads and writes are, block after block, those of
    [blockTrace]: nothing for a block ending at or before [idx], otherwise
    for each row [r] from the block's last row down to its first, when
    [r >= idx + items.length], a read of [r - items.length] (if its block
    exists) followed by a write of [r], then the new items; and no position
    is read after this operation has written it.  As to contents, when
    every block holds [pageSize] slots: every row [r >= idx + items.length]
    of a resident block afterwards holds the row identity found at
    [r - items.length] before the operation, as [getRow(r - items.length,
    true)] returned it then, or the blank placeholder if that row's block
    was not resident. *)
Theorem insertItemsAtIndex_descending_shift s idx items :
  (0 < ps_of s)%Z -> wf s ->
  let order := blocksInReverseOrder s in
  Permutation order (blocks s) /\
  StronglySorted (fun p q => (fst q < fst p)%Z) order /\
  accesses (exec (insertItemsAtIndex idx items) s) =
    accesses s ++ flat_map (fun p => blockTrace s idx items (snd p)) order /\
  readsBeforeWrites (flat_map (fun p => blockTrace s idx items (snd p)) order) /\
  (rowsSized s ->
   forall n o r, In (n, o) (blocks s) ->
   (n * ps_of s <= r < n * ps_of s + ps_of s)%Z -> (idx + Z.of_nat (length items) <= r)%Z ->
   rowAt (exec (insertItemsAtIndex idx items) s) r =
     Some (match rowAt s (r - Z.of_nat (length items)) with Some x => x | None => Blank end)).
Proof.
  intros Hps [Nd F] order.
  assert (Pm : Permutation order (blocks s)) by apply sortDesc_perm.
  assert (St : StronglySorted (fun p q => (fst q < fst p)%Z) order).
  { apply strict_of_nodup; [apply sortDesc_sorted|].
    assert (Pf : map fst order ≡ₚ map fst (blocks s)) by (apply Permutation_map; exact Pm).
    rewrite Pf. exact Nd. }
  split; [exact Pm|]. split; [exact St|]. split; [|split].
  - apply (insertItemsAtIndex_run idx items s).
  - apply rbw_blocks; [exact Hps|exact St|].
    apply List.Forall_forall. intros p Hp.
    apply (proj1 (List.Forall_forall _ _) F). apply (Permutation_in _ Pm Hp).
  - intros Ls n o r Hin Hr Hr2. rewrite insertItemsAtIndex_rows_tail.
    assert (Fa : Forall (fun q => blockAt s (fst q) = Some (snd q) /\ pnOf s !! snd q = Some (fst q))
                   order).
    { apply List.Forall_forall. intros [n' o'] Hq. apply (Permutation_in _ Pm) in Hq.
      pose proof (proj1 (List.Forall_forall _ _) F _ Hq) as Hp. simpl in Hp |- *.
      split; [|exact Hp].
      unfold blockAt. rewrite (lookupBlock_nodup_In n' o' _ Nd Hq).
      destruct (pn_heap s o' n' Hp) as (b&Hb&_). rewrite Hb. reflexivity. }
    destruct (insertLoop_rows idx items s order s Hps (Fr_refl s) Ls St Fa) as (_&_&_&V);
      [intros; reflexivity|].
    apply (V (n, o) r); [|exact Hr|exact Hr2].
    apply (Permutation_in _ (Permutation_sym Pm)). exact Hin.
Qed.

Lemma insertItemsAtIndex_descending_shift_witness :
  (0 < ps_of (c2State None true true 4))%Z /\ wf (c2State None true true 4) /\
  rowsSized (c2State None true true 4) /\
  (let s := c2State None true true 4 in
   let order := blocksInReverseOrder s in
   Permutation order (blocks s) /\
   StronglySorted (fun p q => (fst q < fst p)%Z) order /\
   accesses (exec (insertItemsAtIndex 1 [99]) s) =
     accesses s ++ flat_map (fun p => blockTrace s 1 [99] (snd p)) order /\
   readsBeforeWrites (flat_map (fun p => blockTrace s 1 [99] (snd p)) order) /\
   (rowsSized s ->
    forall n o r, In (n, o) (blocks s) ->
    (n * ps_of s <= r < n * ps_of s + ps_of s)%Z -> (1 + Z.of_nat (length [99]) <= r)%Z ->
    rowAt (exec (insertItemsAtIndex 1 [99]) s) r =
      Some (match rowAt s (r - Z.of_nat (length [99])) with Some x => x | None => Blank end))).
Proof.
  assert (H1 : (0 < ps_of (c2State None true true 4))%Z) by (vm_compute; reflexivity).
  assert (H2 : wf (c2State None true true 4)) by solve_wf.
  split; [exact H1|]. split; [exact H2|]. split; [exact c2State_rowsSized|].
  exact (insertItemsAtIndex_descending_shift (c2State None true true 4) 1 [99] H1 H2).
Defined.

(** C2 (counterexample): with [pageSize = 2], rows [r0..r3] = [Node 0..3]
    in blocks 0 and 1, after [insertItemsAtIndex(1, [x])] the [getRow]
    pass over indices 0..4 does not return [r3] at index 4. *)
Lemma insert_concrete_pass_cex :
  let s' := exec (insertItemsAtIndex 1 [99]) (c2State None true true 4) in
  nth 4 (fst (getRowPass [0; 1; 2; 3; 4]%Z s')) None <> Some (Node 3).
Proof. vm_compute. discriminate. Qed.

(** C2: with [pageSize = 2], rows [r0, r1, r2, r3] = [Node 0 .. Node 3]
    resident in block 0 = [r0, r1] and block 1 = [r2, r3],
    [insertItemsAtIndex(1, [x])] creates [x] as [Node 4]; a [getRow] pass
    over indices 0..4 then returns [r0, x, r1, r2] and, at index 4, the
    blank placeholder of a freshly created block 2: [r3], shifted out of
    the last resident block, is dropped.  [virtualRowCount] grows by 1
    exactly when [maxRowFound] holds. *)
Theorem insert_concrete_pass (act mrf : bool) (vrc : Z) :
  let s' := exec (insertItemsAtIndex 1 [99]) (c2State None act mrf vrc) in
  fst (getRowPass [0; 1; 2; 3; 4]%Z s') =
    [Some (Node 0); Some (Node 4); Some (Node 1); Some (Node 2); Some Blank] /\
  nodeData s' !! 4 = Some 99 /\
  virtualRowCount s' = (if mrf then vrc + 1 else vrc)%Z.
Proof.
  intros s'. split; [|split].
  - destruct act, mrf; vm_compute; reflexivity.
  - destruct act, mrf; vm_compute; reflexivity.
  - destruct (insertItemsAtIndex_run 1 [99] (c2State None act mrf vrc)) as (_&_&_&_&_&V&_).
    exact V.
Qed.

(** C3: when the source row [r - k] of a shift step lies in no resident
    block, [getRow(r - k, true)] returns absence and leaves the cache
    untouched (no block created), and the step writes a blank placeholder
    into the destination row [r] of the page and marks the page dirty,
    leaving its other rows, the block map and the events as they were. *)
Theorem moveStep_missing_source page L k r s b :
  heap s !! page = Some b -> (L <= r)%Z -> blockAt s ((r - k) / ps_of s)%Z = None ->
  (getStartRow (ps_of s) b <= r < getStartRow (ps_of s) b + Z.of_nat (length (rowNodes b)))%Z ->
  getRow (r - k) true s = (None, s) /\
  let s' := exec (moveStep page L k r) s in
  blocks s' = blocks s /\ events s' = events s /\
  exists b', heap s' !! page = Some b' /\ dirty b' = true /\
    slotAt (ps_of s) b' r = Some Blank /\
    (forall r', r' <> r -> slotAt (ps_of s) b' r' = slotAt (ps_of s) b r').
Proof.
  intros Hb Hr B Hrange. destruct (moveStep_missing page L k r s Hr B) as [G E].
  split; [exact G|]. cbv zeta. rewrite E.
  destruct (blank_dirty_heap page r s b Hb) as (H&Bl&Ev&_).
  split; [exact Bl|]. split; [exact Ev|].
  eexists; split; [exact H|]. split; [reflexivity|]. split.
  - apply slotAt_set_slot_eq. exact Hrange.
  - intros r' Hne. apply slotAt_set_slot_ne; [lia|exact Hne].
Qed.

Lemma moveStep_missing_source_witness :
  heap (c2State None true true 4) !! 1 = Some (c2Block 1 [Node 2; Node 3] 0) /\
  (0 <= 3)%Z /\ blockAt (c2State None true true 4) ((3 - 4) / ps_of (c2State None true true 4))%Z = None /\
  (getStartRow 2 (c2Block 1 [Node 2; Node 3] 0) <= 3 <
     getStartRow 2 (c2Block 1 [Node 2; Node 3] 0) + Z.of_nat (length (rowNodes (c2Block 1 [Node 2; Node 3] 0))))%Z /\
  (getRow (3 - 4) true (c2State None true true 4) = (None, c2State None true true 4) /\
   let s' := exec (moveStep 1 0 4 3) (c2State None true true 4) in
   blocks s' = blocks (c2State None true true 4) /\ events s' = events (c2State None true true 4) /\
   exists b', heap s' !! 1 = Some b' /\ dirty b' = true /\
     slotAt (ps_of (c2State None true true 4)) b' 3 = Some Blank /\
     (forall r', r' <> 3%Z -> slotAt (ps_of (c2State None true true 4)) b' r' =
                             slotAt (ps_of (c2State None true true 4)) (c2Block 1 [Node 2; Node 3] 0) r')).
Proof.
  assert (H1 : heap (c2State None true true 4) !! 1 = Some (c2Block 1 [Node 2; Node 3] 0))
    by reflexivity.
  assert (H2 : (0 <= 3)%Z) by lia.
  assert (H3 : blockAt (c2State None true true 4) ((3 - 4) / ps_of (c2State None true true 4))%Z = None)
    by (vm_compute; reflexivity).
  assert (H4 : (getStartRow 2 (c2Block 1 [Node 2; Node 3] 0) <= 3 <
     getStartRow 2 (c2Block 1 [Node 2; Node 3] 0) +
       Z.of_nat (length (rowNodes (c2Block 1 [Node 2; Node 3] 0))))%Z) by (unfold getStartRow; simpl; lia).
  split; [exact H1|]. split; [exact H2|]. split; [exact H3|]. split; [exact H4|].
  exact (moveStep_missing_source 1 0 4 3 (c2State None true true 4) _ H1 H2 H3 H4).
Defined.

(** C4 (counterexample): with [maxBlocksInCache = 0], creating the first
    block pushes the count above the bound, yet no block is evicted: the
    count grows by one. *)
Lemma createBlock_evicts_lru_cex :
  let s := emptyCache (mkParams 2 (Some 0%Z)) true in
  let s' := exec (createBlock 0) s in
  (0 < Z.of_nat (length (blocks s')))%Z /\ length (blocks s') = S (length (blocks s)).
Proof. vm_compute. split; reflexivity. Qed.

(** C4: when creating block [n] (absent, on a fresh object) pushes the
    resident count above [maxBlocksInCache = m], then either no other
    block is resident and nothing is evicted, or exactly one block is
    evicted: the first one, in the block map's iteration order, with the
    smallest [lastAccessed] among the blocks other than the new one
    (blocks before it have a strictly larger stamp, blocks after it a
    larger or equal one).  The new block is kept, so the count goes back
    to its value before the creation, which may still exceed [m]. *)
Theorem createBlock_evicts_lru n s m :
  wf s -> blockAt s n = None -> heap s !! nextObj s = None ->
  maxBlocksInCache (cacheParams s) = Some m -> (m < Z.of_nat (length (blocks s)) + 1)%Z ->
  (blocks s = [] /\ blocks (exec (createBlock n) s) = [(n, nextObj s)]) \/
  (exists pre k ok post,
     blocks s = pre ++ (k, ok) :: post /\
     Forall (fun p => lastAccessedOf (heap s) ok < lastAccessedOf (heap s) (snd p)) pre /\
     Forall (fun p => lastAccessedOf (heap s) ok <= lastAccessedOf (heap s) (snd p)) post /\
     blocks (exec (createBlock n) s) = pre ++ post ++ [(n, nextObj s)]).
Proof.
  intros W B Fresh Mx Over.
  destruct (blocks s) as [|p0 l0] eqn:Eb.
  { left. split; [reflexivity|]. apply createBlock_empty. exact Eb. }
  right. rewrite <- Eb. assert (Hne : blocks s <> []) by (rewrite Eb; discriminate).
  assert (Hall : forall p, In p (blocks s) -> snd p <> nextObj s /\ is_Some (heap s !! snd p)).
  { intros [k o] Hin. destruct (wf_lookup s o k W Hin) as (b&Hb&_). simpl.
    split; [intros E; rewrite E, Fresh in Hb; discriminate|eexists; exact Hb]. }
  destruct (lruScan_none (heap s) (nextObj s) (blocks s) Hne Hall) as (pre&k&ok&post&E&Fp&Fq&R).
  exists pre, k, ok, post. split; [exact E|]. split; [exact Fp|]. split; [exact Fq|].
  pose proof (wf_blockAt_None s n W B) as L.
  assert (Hin : In (k, ok) (blocks s)) by (rewrite E; apply in_or_app; right; left; reflexivity).
  destruct (wf_lookup s ok k W Hin) as (bo&Hbo&Hpn).
  assert (Hok : ok <> nextObj s) by exact (proj1 (Hall _ Hin)).
  assert (Np : needToPurgeAt s (length (blocks s) + 1) = true).
  { unfold needToPurgeAt. rewrite Mx, Eb. apply Z.ltb_lt. lia. }
  unfold exec at 1. rewrite createBlock_unfold. cbn [snd].
  rewrite (proj1 (checkBlockToLoad_frame _)). cbv zeta. rewrite Np.
  rewrite removeBlockFromCache_exec. cbn [heap blocks set_blocks set_heap set_nextObj].
  rewrite lruScan_skip_last, lruScan_insert_fresh, R;
    [|intros p Hp; exact (proj1 (Hall p Hp))|intros a Ha; discriminate].
  rewrite lookup_insert_ne by (intros E'; apply Hok; symmetry; exact E').
  rewrite Hbo. cbn [blocks]. rewrite Hpn.
  assert (Nd : ~ In k (map fst pre ++ map fst post)).
  { destruct W as [Nd _]. rewrite E, map_app in Nd. simpl in Nd.
    apply NoDup_ListNoDup in Nd. apply (NoDup_remove_2 _ _ _ Nd). }
  assert (Hkn : n <> k).
  { intros ->. apply lookupBlock_None in L. exact (proj1 (List.Forall_forall _ _) L _ Hin eq_refl). }
  rewrite E, filter_app, filter_app, filter_drop_key, !filter_keep_all, app_assoc; [reflexivity| | |].
  - constructor; [simpl; exact Hkn|constructor].
  - apply List.Forall_forall. intros x Hx Hxk. apply Nd. apply in_or_app. right.
    rewrite <- Hxk. apply in_map. exact Hx.
  - apply List.Forall_forall. intros x Hx Hxk. apply Nd. apply in_or_app. left.
    rewrite <- Hxk. apply in_map. exact Hx.
Qed.

Lemma createBlock_evicts_lru_witness :
  wf (c2State (Some 2%Z) true false 4) /\ blockAt (c2State (Some 2%Z) true false 4) 2 = None /\
  heap (c2State (Some 2%Z) true false 4) !! nextObj (c2State (Some 2%Z) true false 4) = None /\
  maxBlocksInCache (cacheParams (c2State (Some 2%Z) true false 4)) = Some 2%Z /\
  (2 < Z.of_nat (length (blocks (c2State (Some 2%Z) true false 4))) + 1)%Z /\
  let s := c2State (Some 2%Z) true false 4 in
  ((blocks s = [] /\ blocks (exec (createBlock 2) s) = [(2%Z, nextObj s)]) \/
   (exists pre k ok post,
      blocks s = pre ++ (k, ok) :: post /\
      Forall (fun p => lastAccessedOf (heap s) ok < lastAccessedOf (heap s) (snd p)) pre /\
      Forall (fun p => lastAccessedOf (heap s) ok <= lastAccessedOf (heap s) (snd p)) post /\
      blocks (exec (createBlock 2) s) = pre ++ post ++ [(2%Z, nextObj s)])).
Proof.
  assert (H1 : wf (c2State (Some 2%Z) true false 4)) by solve_wf.
  assert (H2 : blockAt (c2State (Some 2%Z) true false 4) 2 = None) by reflexivity.
  assert (H3 : heap (c2State (Some 2%Z) true false 4) !! nextObj (c2State (Some 2%Z) true false 4) = None)
    by reflexivity.
  assert (H4 : maxBlocksInCache (cacheParams (c2State (Some 2%Z) true false 4)) = Some 2%Z) by reflexivity.
  assert (H5 : (2 < Z.of_nat (length (blocks (c2State (Some 2%Z) true false 4))) + 1)%Z)
    by (simpl; lia).
  split; [exact H1|]. split; [exact H2|]. split; [exact H3|]. split; [exact H4|]. split; [exact H5|].
  exact (createBlock_evicts_lru 2 (c2State (Some 2%Z) true false 4) 2 H1 H2 H3 H4 H5).
Defined.

(** C5: evicting a block ([removeBlockFromCache]) only replaces the block
    map by a sub-list of it; a block created by [createBlock] carries
    exactly one listener, [onPageLoaded], and keeps it whatever is evicted
    afterwards (the new block included), so when its fetch completes,
    successfully or not, the listener runs exactly once. *)
Theorem eviction_keeps_listener n s x res :
  (forall y t, exists bl, exec (removeBlockFromCache y) t = set_blocks t bl /\ incl bl (blocks t)) /\
  let '(c, s1) := createBlock n s in
  let s2 := exec (removeBlockFromCache x) s1 in
  (exists b, heap s2 !! c = Some b /\ listeners b = [OnPageLoaded]) /\
  loadCallbacks (exec (loadComplete c res) s2) = loadCallbacks s2 ++ [c].
Proof.
  split; [apply removeBlockFromCache_only_blocks|].
  pose proof (createBlock_listener n s) as C.
  destruct (createBlock n s) as [c s1]. destruct C as (b&Hb&Hl).
  destruct (removeBlockFromCache_only_blocks x s1) as (bl&E&_). cbv zeta. rewrite E.
  split; [exists b; split; [exact Hb|exact Hl]|].
  apply (loadComplete_callbacks c res (set_blocks s1 bl) b); [exact Hb|exact Hl].
Qed.

(** C6: [insertItemsAtIndex(idx, items)] adds [items.length] to
    [virtualRowCount] when [maxRowFound] holds and leaves it unchanged
    otherwise. *)
Theorem insertItemsAtIndex_virtualRowCount idx items s :
  virtualRowCount (exec (insertItemsAtIndex idx items) s) =
    (if maxRowFound s then virtualRowCount s + Z.of_nat (length items) else virtualRowCount s)%Z.
Proof. destruct (insertItemsAtIndex_run idx items s) as (_&_&_&_&_&V&_). exact V. Qed.

(** C7 (counterexample): on an inactive cache, inserting [[98; 99]] at
    index 1 emits no model-updated notification, and the items-added
    payload [[4; 5]] carries the items in the order [[99; 98]]. *)
Lemma insertItemsAtIndex_events_cex :
  let s' := exec (insertItemsAtIndex 1 [98; 99]) (c2State None false true 4) in
  events s' = [ItemsAdded [4; 5]] /\ map (fun id => nodeData s' !! id) [4; 5] = [Some 99; Some 98].
Proof. vm_compute. split; reflexivity. Qed.

(** C7: [insertItemsAtIndex(idx, items)] emits one model-updated
    notification if the cache is active (none otherwise), then exactly one
    items-added notification whose payload is the list of freshly created
    row nodes: consecutive new ids, carrying the items each block
    materialises, blocks taken in descending block-number order (items in
    their order within a block). *)
Theorem insertItemsAtIndex_events idx items s :
  let s' := exec (insertItemsAtIndex idx items) s in
  exists nn,
    events s' = events s ++ (if active s then [ModelUpdated] else []) ++ [ItemsAdded nn] /\
    NewNodes s s' nn (flat_map (fun p => blockNewItems s idx items (snd p)) (blocksInReverseOrder s)).
Proof. destruct (insertItemsAtIndex_run idx items s) as (_&_&_&_&_&_&_&H). exact H. Qed.

(** C8: under [0 < pageSize], [getRow(i)] (creation allowed) is served by
    the block object mapped to [floor(i / pageSize)] afterwards; that
    block has this page number, its slot for [i] is the result, and its
    range [[startRow, endRow)] contains [i]. *)
Theorem getRow_block_ownership i s :
  (0 < ps_of s)%Z -> wf s ->
  let '(r, s') := getRow i false s in
  cacheParams s' = cacheParams s /\
  exists o b, lookupBlock (i / ps_of s)%Z (blocks s') = Some o /\ heap s' !! o = Some b /\
    pageNumber b = (i / ps_of s)%Z /\ r = slotAt (ps_of s) b i /\
    (getStartRow (ps_of s) b <= i < getEndRow (ps_of s) b)%Z.
Proof.
  intros Hps W. pose proof (getRow_served i s W) as G.
  destruct (getRow i false s) as [r s']. destruct G as (P&o&b&L&Hb&Pn&R).
  split; [exact P|]. exists o, b. split; [exact L|]. split; [exact Hb|]. split; [exact Pn|].
  split; [exact R|]. unfold getEndRow, getStartRow. rewrite Pn.
  pose proof (Z.div_mod i (ps_of s) ltac:(lia)). pose proof (Z.mod_pos_bound i (ps_of s) Hps). nia.
Qed.

Lemma getRow_block_ownership_witness :
  (0 < ps_of (c2State None true true 4))%Z /\ wf (c2State None true true 4) /\
  let '(r, s') := getRow 5 false (c2State None true true 4) in
  cacheParams s' = cacheParams (c2State None true true 4) /\
  exists o b, lookupBlock (5 / ps_of (c2State None true true 4))%Z (blocks s') = Some o /\
    heap s' !! o = Some b /\
    pageNumber b = (5 / ps_of (c2State None true true 4))%Z /\
    r = slotAt (ps_of (c2State None true true 4)) b 5 /\
    (getStartRow (ps_of (c2State None true true 4)) b <= 5 < getEndRow (ps_of (c2State None true true 4)) b)%Z.
Proof.
  assert (H1 : (0 < ps_of (c2State None true true 4))%Z) by (vm_compute; reflexivity).
  assert (H2 : wf (c2State None true true 4)) by solve_wf.
  split; [exact H1|]. split; [exact H2|].
  exact (getRow_block_ownership 5 (c2State None true true 4) H1 H2).
Defined.

(** C9 (counterexample): on an inactive cache, two [purgeCache] calls emit
    no model-updated notification at all. *)
Lemma purgeCache_twice_cex :
  let s := c2State None false true 4 in
  events s = [] /\ events (exec purgeCache s) = [] /\ events (exec purgeCache (exec purgeCache s)) = [].
Proof. vm_compute. repeat split. Qed.

(** C9: [purgeCache] empties the block map and changes nothing else but
    the events, to which it adds one model-updated notification if the
    cache is active (none otherwise); a second call finds the same state
    and does the same; afterwards [getRow(i)] creates and maps the block
    of [i] again. *)
Theorem purgeCache_twice s :
  wf s ->
  let s1 := exec purgeCache s in
  let s2 := exec purgeCache s1 in
  s1 = set_events (set_blocks s []) (events s ++ (if active s then [ModelUpdated] else [])) /\
  s2 = set_events s1 (events s1 ++ (if active s then [ModelUpdated] else [])) /\
  blocks s1 = [] /\ blocks s2 = [] /\
  (forall i, blocks (exec (getRow i false) s1) = [((i / ps_of s)%Z, nextObj s)]) /\
  (forall i, blocks (exec (getRow i false) s2) = [((i / ps_of s)%Z, nextObj s)]).
Proof.
  intros W. cbv zeta. rewrite (purgeCache_exec s W).
  set (s1 := set_events (set_blocks s []) (events s ++ (if active s then [ModelUpdated] else []))).
  assert (W1 : wf s1) by (split; constructor).
  rewrite (purgeCache_exec s1 W1).
  split; [reflexivity|]. split; [reflexivity|]. split; [reflexivity|]. split; [reflexivity|].
  split; intros i; (erewrite getRow_empty; [reflexivity|reflexivity]).
Qed.

Lemma purgeCache_twice_witness :
  wf (c2State None true true 4) /\
  let s1 := exec purgeCache (c2State None true true 4) in
  let s2 := exec purgeCache s1 in
  s1 = set_events (set_blocks (c2State None true true 4) [])
         (events (c2State None true true 4) ++
          (if active (c2State None true true 4) then [ModelUpdated] else [])) /\
  s2 = set_events s1 (events s1 ++ (if active (c2State None true true 4) then [ModelUpdated] else [])) /\
  blocks s1 = [] /\ blocks s2 = [] /\
  (forall i, blocks (exec (getRow i false) s1) =
             [((i / ps_of (c2State None true true 4))%Z, nextObj (c2State None true true 4))]) /\
  (forall i, blocks (exec (getRow i false) s2) =
             [((i / ps_of (c2State None true true 4))%Z, nextObj (c2State None true true 4))]).
Proof.
  assert (H1 : wf (c2State None true true 4)) by solve_wf.
  split; [exact H1|]. exact (purgeCache_twice (c2State None true true 4) H1).
Defined.

(** C10: the [@PostConstruct] hook [init] of a freshly constructed cache
    calls [getRow(0)] with creation allowed, so afterwards block 0 (the
    first object allocated) is the one resident block. *)
Theorem init_creates_block0 params act :
  blocks (exec init (emptyCache params act)) = [(0%Z, 0)].
Proof.
  pose proof (getRow_empty 0 (emptyCache params act) eq_refl) as E.
  unfold init, exec, bind, ret in *.
  destruct (getRow 0 false (emptyCache params act)) as [r s']. simpl in *. exact E.
Qed.

(** ** Further properties of infiniteCache.ts *)

(** *** Steps that allocate nothing *)

Lemma noAlloc_ret {A} (x : A) : noAlloc (ret x).
Proof. intros s. reflexivity. Qed.

Lemma noAlloc_gets {A} (f : InfiniteCache -> A) : noAlloc (gets f).
Proof. intros s. reflexivity. Qed.

Lemma noAlloc_bind {A B} (m : M A) (k : A -> M B) :
  noAlloc m -> (forall a, noAlloc (k a)) -> noAlloc (bind m k).
Proof.
  intros Hm Hk s. unfold bind. specialize (Hm s).
  destruct (m s) as [a s']. simpl in Hm. rewrite Hk. exact Hm.
Qed.

Lemma noAlloc_modifyBlock o f : noAlloc (modifyBlock o f).
Proof. intros s. unfold modifyBlock, modify. simpl. destruct (heap s !! o); reflexivity. Qed.

Lemma noAlloc_mapM_ {A} (f : A -> M unit) l : (forall x, noAlloc (f x)) -> noAlloc (mapM_ f l).
Proof.
  intros Hf. induction l as [|x l IH]; [apply noAlloc_ret|]. cbn [mapM_].
  apply noAlloc_bind; [apply Hf|intros; exact IH].
Qed.

Lemma noAlloc_concatMapM {A B} (f : A -> M (list B)) l :
  (forall x, noAlloc (f x)) -> noAlloc (concatMapM f l).
Proof.
  intros Hf. induction l as [|x l IH]; [apply noAlloc_ret|]. cbn [concatMapM].
  apply noAlloc_bind; [apply Hf|intros]. apply noAlloc_bind; [exact IH|intros; apply noAlloc_ret].
Qed.

Lemma noAlloc_blockGetRow o i : noAlloc (blockGetRow o i).
Proof. intros s. unfold blockGetRow. destruct (heap s !! o); reflexivity. Qed.

Lemma noAlloc_getRow_true i : noAlloc (getRow i true).
Proof.
  unfold getRow. apply noAlloc_bind; [apply noAlloc_gets|intros ps].
  apply noAlloc_bind; [apply noAlloc_gets|intros [o|]]; [apply noAlloc_blockGetRow|apply noAlloc_ret].
Qed.

Lemma noAlloc_moveStep page L k r : noAlloc (moveStep page L k r).
Proof.
  unfold moveStep. destruct (r <? L)%Z; [apply noAlloc_ret|].
  apply noAlloc_bind; [apply noAlloc_getRow_true|intros [n|]].
  - unfold setRowNode. apply noAlloc_bind; [apply noAlloc_gets|intros].
    apply noAlloc_bind; [apply noAlloc_modifyBlock|intros]. intros s; reflexivity.
  - unfold setBlankRowNode. apply noAlloc_bind; [|intros; apply noAlloc_modifyBlock].
    apply noAlloc_bind; [apply noAlloc_gets|intros].
    apply noAlloc_bind; [apply noAlloc_modifyBlock|intros]. intros s; reflexivity.
Qed.

Lemma noAlloc_setNewData o r it : noAlloc (setNewData o r it).
Proof.
  unfold setNewData. apply noAlloc_bind; [apply noAlloc_gets|intros id].
  apply noAlloc_bind; [intros s; reflexivity|intros].
  apply noAlloc_bind; [apply noAlloc_gets|intros].
  apply noAlloc_bind; [apply noAlloc_modifyBlock|intros].
  apply noAlloc_bind; [intros s; reflexivity|intros; apply noAlloc_ret].
Qed.

Lemma noAlloc_insertItemsFrom block st en idx items : forall index,
  noAlloc (insertItemsFrom block st en idx index items).
Proof.
  induction items as [|it items IH]; intros index; [apply noAlloc_ret|]. cbn [insertItemsFrom].
  apply noAlloc_bind; [|intros; apply noAlloc_bind; [apply IH|intros; apply noAlloc_ret]].
  destruct (_ && _); [|apply noAlloc_ret].
  apply noAlloc_bind; [apply noAlloc_setNewData|intros; apply noAlloc_ret].
Qed.

Lemma noAlloc_insertCallback idx items o : noAlloc (insertCallback idx items o).
Proof.
  intros s. unfold insertCallback. destruct (heap s !! o) as [b|]; [|reflexivity].
  destruct (_ <=? _)%Z; [reflexivity|].
  revert s. apply noAlloc_bind.
  - intros s. unfold moveItemsDown. destruct (heap s !! o); [|reflexivity].
    apply noAlloc_mapM_. intros; apply noAlloc_moveStep.
  - intros _ s. unfold insertItems. destruct (heap s !! o); [|reflexivity].
    apply noAlloc_insertItemsFrom.
Qed.

Lemma noAlloc_insertItemsAtIndex idx items : noAlloc (insertItemsAtIndex idx items).
Proof.
  unfold insertItemsAtIndex. apply noAlloc_bind; [apply noAlloc_gets|intros order].
  apply noAlloc_bind; [apply noAlloc_concatMapM; intros; apply noAlloc_insertCallback|intros].
  apply noAlloc_bind; [apply noAlloc_gets|intros mrf].
  apply noAlloc_bind.
  - destruct mrf; [|apply noAlloc_ret].
    apply noAlloc_bind; [apply noAlloc_gets|intros; intros s; reflexivity].
  - intros. apply noAlloc_bind; [|intros; intros s; reflexivity].
    unfold dispatchModelUpdated. apply noAlloc_bind; [apply noAlloc_gets|intros act].
    destruct act; [intros s; reflexivity|apply noAlloc_ret].
Qed.

Lemma noAlloc_forEachBlockInOrder f : (forall o, noAlloc (f o)) -> noAlloc (forEachBlockInOrder f).
Proof. intros Hf s. unfold forEachBlockInOrder. apply (noAlloc_mapM_ (fun p => f (snd p))). auto. Qed.

(** *** The invariant [cacheInv] *)

Lemma shape_pnOf s s' : shapeOf <$> heap s' = shapeOf <$> heap s -> pnOf s' = pnOf s.
Proof.
  intros E. unfold pnOf. apply map_eq. intros o. rewrite !lookup_fmap.
  assert (E' : (shapeOf <$> heap s') !! o = (shapeOf <$> heap s) !! o) by now rewrite E.
  rewrite !lookup_fmap in E'.
  destruct (heap s' !! o), (heap s !! o); simpl in *; try discriminate; [|reflexivity].
  unfold shapeOf in E'. injection E' as E1 _. rewrite E1. reflexivity.
Qed.

Lemma cacheInv_frame s s' :
  blocks s' = blocks s -> pnOf s' = pnOf s -> nextObj s' = nextObj s -> cacheInv s -> cacheInv s'.
Proof.
  intros Hb Hp Hn [[N F] A]. split; [split|].
  - rewrite Hb. exact N.
  - rewrite Hb, Hp. exact F.
  - intros o Ho. rewrite Hn. apply A. apply (heap_Some_pn s s' o Hp). exact Ho.
Qed.

Lemma nodup_keys_filter (P : Z * nat -> Prop) `{forall x, Decision (P x)} (l : list (Z * nat)) :
  NoDup (map fst l) -> NoDup (map fst (filter P l)).
Proof.
  induction l as [|x l IH]; intros N; [constructor|]. simpl in N. apply NoDup_cons in N as [Nx N].
  rewrite filter_cons. destruct (decide (P x)); simpl; [apply NoDup_cons; split|]; auto.
  intros Hin. apply Nx. apply list_elem_of_In in Hin. apply list_elem_of_In.
  apply in_map_iff in Hin as (y&Ey&Hy). apply in_map_iff. exists y. split; [exact Ey|].
  apply list_elem_of_In, list_elem_of_filter in Hy. apply list_elem_of_In. exact (proj2 Hy).
Qed.

Lemma cacheInv_filter (P : Z * nat -> Prop) `{forall x, Decision (P x)} s :
  cacheInv s -> cacheInv (set_blocks s (filter P (blocks s))).
Proof.
  intros [[N F] A]. split; [split|].
  - apply nodup_keys_filter. exact N.
  - apply List.Forall_forall. intros p Hp. apply list_elem_of_In, list_elem_of_filter in Hp as [_ Hp].
    apply list_elem_of_In in Hp. exact (proj1 (List.Forall_forall _ _) F p Hp).
  - exact A.
Qed.

Lemma cacheInv_load s : cacheInv s -> cacheInv (exec checkBlockToLoad s).
Proof.
  destruct (checkBlockToLoad_frame s) as (Bk&Sh&_&_&_&_&Nx&_).
  apply cacheInv_frame; [exact Bk|apply shape_pnOf; exact Sh|exact Nx].
Qed.

Lemma cacheInv_blockGetRow o i s : cacheInv s -> cacheInv (exec (blockGetRow o i) s).
Proof.
  unfold exec, blockGetRow. destruct (heap s !! o) eqn:Hb; [|auto].
  apply cacheInv_frame; [reflexivity| |reflexivity].
  unfold pnOf. simpl. eapply pn_insert_same; [exact Hb|reflexivity].
Qed.

Lemma cacheInv_createBlock n s : cacheInv s -> blockAt s n = None -> cacheInv (exec (createBlock n) s).
Proof.
  intros I B. pose proof (wf_blockAt_None s n (proj1 I) B) as L.
  unfold exec. rewrite createBlock_unfold. cbn [snd]. apply cacheInv_load. cbv zeta.
  set (c := nextObj s).
  set (s1 := set_blocks (set_heap (set_nextObj s (S c))
               (<[c := add_listener (newInfiniteBlock n (ps_of s)) OnPageLoaded]> (heap s)))
               (blocks s ++ [(n, c)])).
  assert (I1 : cacheInv s1).
  { destruct I as [[N F] A]. split; [split|].
    - simpl. rewrite map_app. simpl. apply NoDup_app. split; [exact N|]. split; [|apply NoDup_singleton].
      intros x Hx Hx'. apply list_elem_of_singleton in Hx'. subst x.
      apply list_elem_of_In, in_map_iff in Hx as (y&Ey&Hy).
      apply lookupBlock_None in L. exact (proj1 (List.Forall_forall _ _) L y Hy Ey).
    - simpl. apply Forall_app. split.
      + apply List.Forall_forall. intros [k o] Hin. pose proof (proj1 (List.Forall_forall _ _) F _ Hin) as Hp.
        simpl in *. unfold pnOf in *. simpl.
        assert (Ho : o < c).
        { apply A. rewrite lookup_fmap in Hp. destruct (heap s !! o); [eauto|discriminate]. }
        rewrite lookup_fmap, lookup_insert_ne by lia. rewrite <- lookup_fmap. exact Hp.
      + constructor; [|constructor]. unfold pnOf. simpl. rewrite lookup_fmap, lookup_insert_eq. reflexivity.
    - intros o Ho. simpl in Ho. simpl. apply lookup_insert_is_Some in Ho.
      destruct Ho as [<-|[_ Ho]]; [lia|]. apply A in Ho. unfold c in *. lia. }
  destruct (needToPurgeAt _ _); [|exact I1].
  rewrite removeBlockFromCache_exec.
  destruct (lruScan _ _ _ _) as [ok|]; [|exact I1].
  destruct (heap s1 !! ok); [|exact I1]. apply cacheInv_filter. exact I1.
Qed.

Lemma getRow_true_exec i s :
  getRow i true s =
  match blockAt s (i / ps_of s)%Z with Some o => blockGetRow o i s | None => (None, s) end.
Proof.
  cbv beta iota zeta delta [getRow bind gets getBlock ret].
  destruct (blockAt s (i / ps_of s)%Z); reflexivity.
Qed.

Lemma mapM_Keeps {A} (f : A -> M unit) :
  (forall x s, Keeps s (exec (f x) s)) -> forall l s, Keeps s (exec (mapM_ f l) s).
Proof.
  intros Hf. induction l as [|x l IH]; intros s; [apply Keeps_refl|].
  rewrite exec_mapM_cons. eapply Keeps_trans; [apply Hf|apply IH].
Qed.

Lemma setDirty_pass_keeps s : Keeps s (exec (forEachBlockInOrder setDirty) s).
Proof.
  unfold exec, forEachBlockInOrder. apply (mapM_Keeps (fun p => setDirty (snd p))).
  intros; apply setDirty_spec.
Qed.

Lemma refreshCache_exec s :
  exec refreshCache s = exec checkBlockToLoad (exec (forEachBlockInOrder setDirty) s).
Proof. unfold exec, refreshCache, bind. destruct (forEachBlockInOrder setDirty s). reflexivity. Qed.

Ltac solve_alloc :=
  let o := fresh "o" in let Ho := fresh "Ho" in
  intros o Ho; unfold c2State in Ho; cbn [heap] in Ho;
  destruct (decide (o < 2)) as [?|Hge]; [cbn; lia|];
  rewrite !lookup_insert_ne in Ho by lia; rewrite lookup_empty in Ho; destruct Ho as [? Ho]; discriminate.

Ltac solve_inv := split; [solve_wf|solve_alloc].

(** *** Extra properties *)

(** X1: [getRow(rowIndex, dontCreatePage)] keeps the block map well formed
    (distinct block numbers, each mapped to an allocated block carrying that
    number) and never reuses an allocated block object. *)
Theorem getRow_preserves_cacheInv i dontCreatePage s :
  cacheInv s -> cacheInv (exec (getRow i dontCreatePage) s).
Proof.
  intros I. unfold exec. destruct dontCreatePage.
  - rewrite getRow_true_exec. destruct (blockAt s (i / ps_of s)%Z); [|exact I].
    apply cacheInv_blockGetRow. exact I.
  - rewrite getRow_create. destruct (blockAt s (i / ps_of s)%Z) eqn:B;
      [apply cacheInv_blockGetRow; exact I|].
    pose proof (cacheInv_createBlock _ s I B) as C. unfold exec in C.
    destruct (createBlock _ s) as [o s1]. apply cacheInv_blockGetRow. exact C.
Qed.

Lemma getRow_preserves_cacheInv_witness :
  cacheInv (c2State (Some 2%Z) true false 4) /\
  cacheInv (exec (getRow 4 false) (c2State (Some 2%Z) true false 4)).
Proof. split; [solve_inv|apply getRow_preserves_cacheInv; solve_inv]. Defined.

(** X2: [insertItemsAtIndex], [refreshCache] and [purgeCache] also keep the
    block map well formed and the allocation fresh. *)
Theorem updates_preserve_cacheInv idx items s :
  cacheInv s ->
  cacheInv (exec (insertItemsAtIndex idx items) s) /\ cacheInv (exec refreshCache s) /\
  cacheInv (exec purgeCache s).
Proof.
  intros I. split; [|split].
  - destruct (insertItemsAtIndex_run idx items s) as (_&_&Bl&Pn&_).
    apply (cacheInv_frame s); [exact Bl|exact Pn|apply noAlloc_insertItemsAtIndex|exact I].
  - rewrite refreshCache_exec. apply cacheInv_load.
    destruct (setDirty_pass_keeps s) as ((_&_&Bl&Pn&_)&_).
    apply (cacheInv_frame s); [exact Bl|exact Pn| |exact I].
    apply noAlloc_forEachBlockInOrder. intros o. apply noAlloc_modifyBlock.
  - rewrite purgeCache_exec by exact (proj1 I). destruct I as [_ A].
    split; [split; constructor|exact A].
Qed.

Lemma updates_preserve_cacheInv_witness :
  cacheInv (c2State (Some 2%Z) true true 4) /\
  cacheInv (exec (insertItemsAtIndex 1 [7]) (c2State (Some 2%Z) true true 4)) /\
  cacheInv (exec refreshCache (c2State (Some 2%Z) true true 4)) /\
  cacheInv (exec purgeCache (c2State (Some 2%Z) true true 4)).
Proof. split; [solve_inv|apply updates_preserve_cacheInv; solve_inv]. Defined.

Lemma flat_map_all_nil {A B} (f : A -> list B) l :
  (forall x, In x l -> f x = []) -> flat_map f l = [].
Proof.
  induction l as [|x l IH]; intros H; simpl; [reflexivity|].
  rewrite H, IH; [reflexivity| |left; reflexivity]. intros y Hy. apply H. right. exact Hy.
Qed.

(** X3: [insertItemsAtIndex] never creates, evicts or re-numbers a block:
    the block map, the page number of every block object, the allocation
    counter and the cache parameters are unchanged. *)
Theorem insertItemsAtIndex_keeps_blocks idx items s :
  let s' := exec (insertItemsAtIndex idx items) s in
  blocks s' = blocks s /\ pnOf s' = pnOf s /\ nextObj s' = nextObj s /\
  cacheParams s' = cacheParams s.
Proof.
  destruct (insertItemsAtIndex_run idx items s) as (P&_&Bl&Pn&_).
  split; [exact Bl|]. split; [exact Pn|]. split; [apply noAlloc_insertItemsAtIndex|exact P].
Qed.

(** X4: inserting at an index at or past the end of every resident block
    reads and writes no row, creates no row node, and only dispatches
    [modelUpdated] (when active) and an empty [itemsAdded] event. *)
Theorem insertItemsAtIndex_past_all_blocks idx items s :
  (forall k o b, In (k, o) (blocks s) -> heap s !! o = Some b -> (getEndRow (ps_of s) b <= idx)%Z) ->
  let s' := exec (insertItemsAtIndex idx items) s in
  accesses s' = accesses s /\ nextNodeId s' = nextNodeId s /\
  events s' = events s ++ (if active s then [ModelUpdated] else []) ++ [ItemsAdded []].
Proof.
  intros Hend. cbv zeta.
  destruct (insertItemsAtIndex_run idx items s) as (_&_&_&_&_&_&Ac&nn&Ev&NN).
  assert (Hin : forall p, In p (blocksInReverseOrder s) ->
            (forall b, heap s !! snd p = Some b -> (getEndRow (ps_of s) b <= idx)%Z)).
  { intros [k o] Hp b Hb. apply (Hend k o b); [|exact Hb].
    apply (Permutation_in _ (sortDesc_perm (blocks s))). exact Hp. }
  assert (Htr : flat_map (fun p => blockTrace s idx items (snd p)) (blocksInReverseOrder s) = []).
  { apply flat_map_all_nil. intros p Hp. unfold blockTrace, pnOf. rewrite lookup_fmap.
    destruct (heap s !! snd p) as [b|] eqn:Hb; [|reflexivity]. simpl.
    pose proof (Hin p Hp b Hb) as He. unfold getEndRow, getStartRow in He.
    rewrite (proj2 (Z.leb_le _ _) He). reflexivity. }
  assert (Hni : flat_map (fun p => blockNewItems s idx items (snd p)) (blocksInReverseOrder s) = []).
  { apply flat_map_all_nil. intros p Hp. unfold blockNewItems, pnOf. rewrite lookup_fmap.
    destruct (heap s !! snd p) as [b|] eqn:Hb; [|reflexivity]. simpl.
    pose proof (Hin p Hp b Hb) as He. unfold getEndRow, getStartRow in He.
    rewrite (proj2 (Z.leb_le _ _) He). reflexivity. }
  rewrite Hni in NN. destruct NN as (Enn&Enx&_). simpl in Enn. subst nn.
  split; [rewrite Ac, Htr; apply app_nil_r|]. split; [rewrite Enx; simpl; lia|exact Ev].
Qed.

Lemma insertItemsAtIndex_past_all_blocks_witness :
  (forall k o b, In (k, o) (blocks (c2State (Some 2%Z) true true 4)) ->
     heap (c2State (Some 2%Z) true true 4) !! o = Some b ->
     (getEndRow (ps_of (c2State (Some 2%Z) true true 4)) b <= 4)%Z) /\
  let s' := exec (insertItemsAtIndex 4 [7; 8]) (c2State (Some 2%Z) true true 4) in
  accesses s' = accesses (c2State (Some 2%Z) true true 4) /\
  nextNodeId s' = nextNodeId (c2State (Some 2%Z) true true 4) /\
  events s' = events (c2State (Some 2%Z) true true 4) ++
    (if active (c2State (Some 2%Z) true true 4) then [ModelUpdated] else []) ++ [ItemsAdded []].
Proof.
  assert (H : forall k o b, In (k, o) (blocks (c2State (Some 2%Z) true true 4)) ->
     heap (c2State (Some 2%Z) true true 4) !! o = Some b ->
     (getEndRow (ps_of (c2State (Some 2%Z) true true 4)) b <= 4)%Z).
  { intros k o b Hin Hb. simpl in Hin. destruct Hin as [E|[E|[]]]; injection E as <- <-;
      vm_compute in Hb; injection Hb as <-; vm_compute; discriminate. }
  split; [exact H|apply insertItemsAtIndex_past_all_blocks; exact H].
Defined.

(** X5: inserting an empty list creates no row node and leaves the virtual
    row count and the block map alone; the events are still [modelUpdated]
    (when active) and an [itemsAdded] event with no node. *)
Theorem insertItemsAtIndex_nothing idx s :
  let s' := exec (insertItemsAtIndex idx []) s in
  nextNodeId s' = nextNodeId s /\ virtualRowCount s' = virtualRowCount s /\
  blocks s' = blocks s /\
  events s' = events s ++ (if active s then [ModelUpdated] else []) ++ [ItemsAdded []].
Proof.
  cbv zeta. destruct (insertItemsAtIndex_run idx [] s) as (_&_&Bl&_&_&V&_&nn&Ev&NN).
  assert (Hni : flat_map (fun p => blockNewItems s idx [] (snd p)) (blocksInReverseOrder s) = []).
  { apply flat_map_all_nil. intros p _. unfold blockNewItems.
    destruct (pnOf s !! snd p); [|reflexivity]. simpl. destruct (_ <=? _)%Z; reflexivity. }
  rewrite Hni in NN. destruct NN as (Enn&Enx&_). simpl in Enn. subst nn.
  split; [rewrite Enx; simpl; lia|]. split; [rewrite V; simpl; destruct (maxRowFound s); lia|].
  split; [exact Bl|exact Ev].
Qed.

(** X6: [getRow(rowIndex, true)] only reads: it never creates or evicts a
    block, allocates nothing, dispatches nothing and creates no row node. *)
Theorem getRow_dontCreatePage_only_reads i s :
  let s' := exec (getRow i true) s in
  blocks s' = blocks s /\ pnOf s' = pnOf s /\ nextObj s' = nextObj s /\ events s' = events s /\
  nextNodeId s' = nextNodeId s /\ nodeData s' = nodeData s.
Proof.
  pose proof (getRow_nocreate i s) as G. pose proof (noAlloc_getRow_true i s) as N.
  unfold exec in *. destruct (getRow i true s) as [r s'].
  destruct G as (((_&_&Bl&Pn&_&_&Ev)&Nd&Nda)&_). simpl in *. repeat split; assumption.
Qed.

Lemma getRow_resident_exec i dontCreatePage s o :
  blockAt s (i / ps_of s)%Z = Some o -> getRow i dontCreatePage s = blockGetRow o i s.
Proof.
  intros B. destruct dontCreatePage; [rewrite getRow_true_exec|rewrite getRow_create]; rewrite B; reflexivity.
Qed.

(** X7: when the block of [rowIndex] is resident, [getRow] (with either
    flag) returns that block's slot for the row, stamps the block with the
    current access sequence number, advances the sequence, and leaves the
    block map and the allocation alone. *)
Theorem getRow_resident_block i dontCreatePage s o :
  blockAt s (i / ps_of s)%Z = Some o ->
  let '(r, s') := getRow i dontCreatePage s in
  exists b, heap s !! o = Some b /\ r = slotAt (ps_of s) b i /\
    heap s' !! o = Some (set_lastAccessed b (lastAccessedSequence s)) /\
    lastAccessedSequence s' = S (lastAccessedSequence s) /\
    blocks s' = blocks s /\ nextObj s' = nextObj s.
Proof.
  intros B. rewrite (getRow_resident_exec i dontCreatePage s o B).
  destruct (blockAt_Some _ _ _ B) as (b&Hb).
  unfold blockGetRow. rewrite Hb. exists b.
  split; [reflexivity|]. split; [reflexivity|]. split; [simpl; apply lookup_insert_eq|].
  repeat split.
Qed.

Lemma getRow_resident_block_witness :
  blockAt (c2State (Some 2%Z) true false 4) (3 / ps_of (c2State (Some 2%Z) true false 4))%Z = Some 1 /\
  let '(r, s') := getRow 3 false (c2State (Some 2%Z) true false 4) in
  exists b, heap (c2State (Some 2%Z) true false 4) !! 1 = Some b /\
    r = slotAt (ps_of (c2State (Some 2%Z) true false 4)) b 3 /\
    heap s' !! 1 = Some (set_lastAccessed b (lastAccessedSequence (c2State (Some 2%Z) true false 4))) /\
    lastAccessedSequence s' = S (lastAccessedSequence (c2State (Some 2%Z) true false 4)) /\
    blocks s' = blocks (c2State (Some 2%Z) true false 4) /\
    nextObj s' = nextObj (c2State (Some 2%Z) true false 4).
Proof. split; [vm_compute; reflexivity|apply getRow_resident_block; vm_compute; reflexivity]. Defined.

(** X8: once [getRow(i)] has served row [i], a [getRow] of any row of the
    same page leaves the block map as it is: a page is created at most once. *)
Theorem getRow_same_page_no_new_block i j s :
  wf s -> (j / ps_of s = i / ps_of s)%Z ->
  let s1 := exec (getRow i false) s in
  blocks (exec (getRow j false) s1) = blocks s1.
Proof.
  intros W Ej. cbv zeta. pose proof (getRow_served i s W) as G. unfold exec at 2 3.
  destruct (getRow i false s) as [r s1]. destruct G as (P&o&b&L&Hb&_). simpl.
  assert (B : blockAt s1 (j / ps_of s1)%Z = Some o).
  { unfold blockAt, ps_of. rewrite P. fold (ps_of s). rewrite Ej, L, Hb. reflexivity. }
  unfold exec. rewrite (getRow_resident_exec j false s1 o B). apply blockGetRow_blocks.
Qed.

Lemma getRow_same_page_no_new_block_witness :
  wf (c2State (Some 2%Z) true false 4) /\
  (5 / ps_of (c2State (Some 2%Z) true false 4) = 4 / ps_of (c2State (Some 2%Z) true false 4))%Z /\
  let s1 := exec (getRow 4 false) (c2State (Some 2%Z) true false 4) in
  blocks (exec (getRow 5 false) s1) = blocks s1.
Proof.
  split; [solve_wf|]. split; [reflexivity|].
  apply getRow_same_page_no_new_block; [solve_wf|reflexivity].
Defined.

(** X9: while the block map is below [maxBlocksInCache] (or there is no
    maximum), [getRow] never evicts: the map is unchanged, or gains the
    requested page, mapped to a fresh block object, at the end. *)
Theorem getRow_no_eviction_below_max i dontCreatePage s :
  match maxBlocksInCache (cacheParams s) with
  | Some m => (Z.of_nat (length (blocks s)) + 1 <= m)%Z
  | None => True
  end ->
  let s' := exec (getRow i dontCreatePage) s in
  blocks s' = blocks s \/ blocks s' = blocks s ++ [((i / ps_of s)%Z, nextObj s)].
Proof.
  intros Hroom. cbv zeta. unfold exec.
  assert (Hb : forall o s0, blocks (snd (blockGetRow o i s0)) = blocks s0)
    by exact (fun o s0 => blockGetRow_blocks o i s0).
  destruct dontCreatePage.
  - left. rewrite getRow_true_exec. destruct (blockAt s _); [apply Hb|reflexivity].
  - rewrite getRow_create. destruct (blockAt s _); [left; apply Hb|right].
    rewrite createBlock_unfold. cbv beta iota zeta. rewrite Hb.
    rewrite (proj1 (checkBlockToLoad_frame _)).
    replace (needToPurgeAt s (length (blocks s) + 1)) with false; [reflexivity|].
    unfold needToPurgeAt. destruct (maxBlocksInCache (cacheParams s)) as [m|]; [|reflexivity].
    symmetry. apply Z.ltb_ge. lia.
Qed.

Lemma getRow_no_eviction_below_max_witness :
  (Z.of_nat (length (blocks (c2State (Some 3%Z) true false 4))) + 1 <= 3)%Z /\
  let s' := exec (getRow 4 false) (c2State (Some 3%Z) true false 4) in
  blocks s' = blocks (c2State (Some 3%Z) true false 4) \/
  blocks s' = blocks (c2State (Some 3%Z) true false 4) ++
    [((4 / ps_of (c2State (Some 3%Z) true false 4))%Z, nextObj (c2State (Some 3%Z) true false 4))].
Proof.
  split; [simpl; lia|].
  apply (getRow_no_eviction_below_max 4 false (c2State (Some 3%Z) true false 4)). simpl. lia.
Defined.

(** X10: [getRow] does no bounds check on the row index: with a positive
    page size, a negative row index is served from a block with a negative
    block number, which [getRow] creates if needed. *)
Theorem getRow_negative_index i s :
  wf s -> (0 < ps_of s)%Z -> (i < 0)%Z ->
  let '(r, s') := getRow i false s in
  exists o b, lookupBlock (i / ps_of s)%Z (blocks s') = Some o /\ heap s' !! o = Some b /\
    (pageNumber b < 0)%Z /\ r = slotAt (ps_of s) b i.
Proof.
  intros W Hps Hi. pose proof (getRow_served i s W) as G.
  destruct (getRow i false s) as [r s']. destruct G as (_&o&b&L&Hb&Pn&R).
  exists o, b. split; [exact L|]. split; [exact Hb|]. split; [|exact R].
  rewrite Pn. apply Z.div_lt_upper_bound; lia.
Qed.

Lemma getRow_negative_index_witness :
  wf (c2State (Some 2%Z) true false 4) /\ (0 < ps_of (c2State (Some 2%Z) true false 4))%Z /\
  let '(r, s') := getRow (-1) false (c2State (Some 2%Z) true false 4) in
  exists o b, lookupBlock (-1 / ps_of (c2State (Some 2%Z) true false 4))%Z (blocks s') = Some o /\
    heap s' !! o = Some b /\ (pageNumber b < 0)%Z /\
    r = slotAt (ps_of (c2State (Some 2%Z) true false 4)) b (-1).
Proof.
  split; [solve_wf|]. split; [reflexivity|].
  apply getRow_negative_index; [solve_wf|reflexivity|lia].
Defined.

(** *** The least-recently-used scan *)

Lemma lruScan_acc_some h c l a : lruScan h c l (Some a) <> None.
Proof.
  revert a. induction l as [|[k o] l IH]; intros a; simpl; [discriminate|].
  destruct (h !! o) as [b|]; [|apply IH].
  destruct (Nat.eqb o c); [apply IH|]. destruct (Nat.ltb _ _); apply IH.
Qed.

Lemma lruScan_None_iff h c l :
  lruScan h c l None = None <-> forall p, In p l -> snd p = c \/ h !! snd p = None.
Proof.
  induction l as [|[k o] l IH]; simpl; [split; [intros _ p []|reflexivity]|].
  destruct (h !! o) as [b|] eqn:Ho.
  - destruct (Nat.eqb_spec o c) as [Eo|Eo].
    + rewrite IH. split; intros H p Hp; [destruct Hp as [<-|Hp]; [left; exact Eo|auto]|].
      apply H. right. exact Hp.
    + split; [intros H; exfalso; exact (lruScan_acc_some _ _ _ _ H)|].
      intros H. destruct (H (k, o) (or_introl eq_refl)) as [E|E]; simpl in E; congruence.
  - rewrite IH. split; intros H p Hp; [destruct Hp as [<-|Hp]; [right; exact Ho|auto]|].
    apply H. right. exact Hp.
Qed.

Lemma lruScan_min h c l acc ok :
  lruScan h c l acc = Some ok ->
  (forall a, acc = Some a -> lastAccessedOf h ok <= lastAccessedOf h a) /\
  (forall p, In p l -> snd p <> c -> is_Some (h !! snd p) ->
     lastAccessedOf h ok <= lastAccessedOf h (snd p)).
Proof.
  revert acc. induction l as [|[k o] l IH]; intros acc H; simpl in H.
  - split; [intros a -> ; injection H as ->; lia|intros _ []].
  - destruct (h !! o) as [b|] eqn:Ho.
    + assert (Lo : lastAccessedOf h o = lastAccessed b) by (unfold lastAccessedOf; rewrite Ho; reflexivity).
      destruct (Nat.eqb_spec o c) as [Eo|Eo].
      * destruct (IH _ H) as [H1 H2]. split; [exact H1|].
        intros p [<-|Hp] Hc Hs; [simpl in Hc; congruence|auto].
      * destruct acc as [a|].
        -- destruct (Nat.ltb_spec (lastAccessed b) (lastAccessedOf h a)) as [Lt|Ge];
             destruct (IH _ H) as [H1 H2].
           ++ specialize (H1 o eq_refl). split; [intros a' E; injection E as <-; lia|].
              intros p [<-|Hp] Hc Hs; [simpl; lia|auto].
           ++ specialize (H1 a eq_refl). split; [intros a' E; injection E as <-; lia|].
              intros p [<-|Hp] Hc Hs; [simpl; lia|auto].
        -- destruct (IH _ H) as [H1 H2]. specialize (H1 o eq_refl). split; [discriminate|].
           intros p [<-|Hp] Hc Hs; [simpl; lia|auto].
    + destruct (IH _ H) as [H1 H2]. split; [exact H1|].
      intros p [<-|Hp] Hc Hs; [simpl in Hs; rewrite Ho in Hs; destruct Hs as [? Hs]; discriminate|auto].
Qed.

(** X11: [findLeastRecentlyUsedPage(pageToExclude)] changes nothing; it
    returns [null] exactly when every resident entry is the excluded block
    (or not allocated), and otherwise a resident block other than the
    excluded one whose [lastAccessed] is minimal among them. *)
Theorem findLeastRecentlyUsedPage_spec pageToExclude s :
  let '(r, s') := findLeastRecentlyUsedPage pageToExclude s in
  s' = s /\
  (r = None <-> forall p, In p (blocks s) -> snd p = pageToExclude \/ heap s !! snd p = None) /\
  (forall ok, r = Some ok ->
     ok <> pageToExclude /\ is_Some (heap s !! ok) /\ (exists k, In (k, ok) (blocks s)) /\
     forall p, In p (blocks s) -> snd p <> pageToExclude -> is_Some (heap s !! snd p) ->
       lastAccessedOf (heap s) ok <= lastAccessedOf (heap s) (snd p)).
Proof.
  unfold findLeastRecentlyUsedPage, gets. split; [reflexivity|]. split; [apply lruScan_None_iff|].
  intros ok H. destruct (lruScan_mem _ _ _ _ _ H) as [E|(k&Hin&Hne&Hs)]; [discriminate|].
  destruct (lruScan_min _ _ _ _ _ H) as [_ Hm].
  split; [exact Hne|]. split; [exact Hs|]. split; [exists k; exact Hin|exact Hm].
Qed.

(** *** A missing page *)

Lemma mapM_preserve (g : nat -> M unit) (Q : InfiniteCache -> Prop) :
  (forall x s, Q s -> Q (exec (g x) s)) ->
  forall (l : list (Z * nat)) s, Q s -> Q (exec (mapM_ (fun p => g (snd p)) l) s).
Proof.
  intros Hg. induction l as [|q l IH]; intros s HQ; [exact HQ|].
  rewrite exec_mapM_cons. apply IH. apply Hg. exact HQ.
Qed.

Lemma lookup_repeat_lt {A} (x : A) n k : k < n -> repeat x n !! k = Some x.
Proof. revert k. induction n as [|n IH]; intros [|k] Hk; simpl; try lia; auto. apply IH. lia. Qed.

Lemma createBlock_eviction n s :
  wf s -> blockAt s n = None ->
  let c := nextObj s in
  let s1 := set_blocks (set_heap (set_nextObj s (S c))
               (<[c := add_listener (newInfiniteBlock n (ps_of s)) OnPageLoaded]> (heap s)))
               (blocks s ++ [(n, c)]) in
  exists bl,
    (if needToPurgeAt s (length (blocks s) + 1)
     then exec (removeBlockFromCache (lruScan (heap s1) c (blocks s1) None)) s1 else s1)
    = set_blocks s1 bl /\ lookupBlock n bl = Some c.
Proof.
  intros W B c s1. pose proof (wf_blockAt_None s n W B) as L.
  assert (Base : lookupBlock n (blocks s1) = Some c).
  { simpl. rewrite lookupBlock_app, L. simpl. rewrite Z.eqb_refl. reflexivity. }
  destruct (needToPurgeAt _ _); [|exists (blocks s1); split; [reflexivity|exact Base]].
  rewrite removeBlockFromCache_exec.
  destruct (lruScan (heap s1) c (blocks s1) None) as [ok|] eqn:Hl;
    [|exists (blocks s1); split; [reflexivity|exact Base]].
  destruct (heap s1 !! ok) as [bo|] eqn:Ho; [|exists (blocks s1); split; [reflexivity|exact Base]].
  eexists; split; [reflexivity|].
  destruct (lruScan_mem _ _ _ _ _ Hl) as [E|(k&Hin&Hne&_)]; [discriminate|].
  simpl in Hin. apply in_app_or in Hin.
  destruct Hin as [Hin|[E|[]]]; [|injection E; intros; congruence].
  destruct (wf_lookup s ok k W Hin) as (b0&Hb0&Hpn).
  simpl in Ho. rewrite lookup_insert_ne in Ho by auto. rewrite Hb0 in Ho. injection Ho as <-.
  simpl. rewrite Hpn, filter_app, lookupBlock_app, filter_lookupBlock_None by exact L.
  assert (Hkn : k <> n).
  { apply lookupBlock_None in L. exact (proj1 (List.Forall_forall _ _) L _ Hin). }
  rewrite filter_keep_all by (constructor; [simpl; auto|constructor]).
  simpl. rewrite Z.eqb_refl. reflexivity.
Qed.

(** Starting loads leaves every block's page number and slots as they were. *)
Lemma startLoads_rows (l : list (Z * nat)) s :
  (fun b => (pageNumber b, rowNodes b)) <$> heap (exec (mapM_ (fun p => startLoadIfNeeded (snd p)) l) s) =
  (fun b => (pageNumber b, rowNodes b)) <$> heap s.
Proof.
  apply (mapM_preserve startLoadIfNeeded
           (fun t => (fun b => (pageNumber b, rowNodes b)) <$> heap t =
                     (fun b => (pageNumber b, rowNodes b)) <$> heap s)); [|reflexivity].
  intros x t Ht. unfold exec, startLoadIfNeeded.
  destruct (heap t !! x) as [b|] eqn:Hb; [|exact Ht].
  destruct (match bstate b with NotLoaded => true | Loading => false | Loaded => dirty b end);
    [|exact Ht].
  simpl. rewrite (fmap_insert_same _ _ _ b); [exact Ht|exact Hb|reflexivity].
Qed.

(** The block [createBlock] makes stays mapped, numbered by its page, with
    [pageSize] blank slots. *)
Lemma createBlock_fresh n s :
  wf s -> blockAt s n = None ->
  let '(c, s') := createBlock n s in
  c = nextObj s /\ cacheParams s' = cacheParams s /\
  exists b, lookupBlock n (blocks s') = Some c /\ heap s' !! c = Some b /\
    pageNumber b = n /\ rowNodes b = repeat Blank (Z.to_nat (ps_of s)).
Proof.
  intros W B. pose proof (createBlock_eviction n s W B) as Ev. cbv zeta in Ev.
  rewrite createBlock_unfold. cbv zeta.
  destruct Ev as (bl&E&Lb). rewrite E.
  set (s2 := set_blocks _ bl).
  destruct (checkBlockToLoad_frame s2) as (Bk&_&P&_).
  split; [reflexivity|]. split; [exact P|].
  assert (Hs2 : heap s2 !! nextObj s = Some (add_listener (newInfiniteBlock n (ps_of s)) OnPageLoaded))
    by (simpl; apply lookup_insert_eq).
  assert (Rc : ((fun b => (pageNumber b, rowNodes b)) <$> heap (exec checkBlockToLoad s2)) !! nextObj s =
               ((fun b => (pageNumber b, rowNodes b)) <$> heap s2) !! nextObj s).
  { change (exec checkBlockToLoad s2) with
      (exec (mapM_ (fun p => startLoadIfNeeded (snd p))
               (filter (fun p => bool_decide (is_Some (heap s2 !! snd p))) (blocks s2))) s2).
    rewrite (startLoads_rows _ s2). reflexivity. }
  rewrite !lookup_fmap, Hs2 in Rc.
  destruct (heap (exec checkBlockToLoad s2) !! nextObj s) as [b|] eqn:Hb; [|discriminate].
  injection Rc as Pn Rw.
  exists b. rewrite Bk. split; [exact Lb|]. split; [reflexivity|]. split; [exact Pn|exact Rw].
Qed.

(** X13: [getRow(rowIndex)] on a page that is not in the cache (positive
    page size) returns the blank placeholder row, not [null]; the page is
    then mapped to a fresh block object whose [pageSize] slots are all
    blank placeholders. *)
Theorem getRow_missing_page i s :
  wf s -> (0 < ps_of s)%Z -> blockAt s (i / ps_of s)%Z = None ->
  let '(r, s') := getRow i false s in
  r = Some Blank /\
  exists b, lookupBlock (i / ps_of s)%Z (blocks s') = Some (nextObj s) /\
    heap s' !! nextObj s = Some b /\ rowNodes b = repeat Blank (Z.to_nat (ps_of s)).
Proof.
  intros W Hps B. rewrite getRow_create, B.
  pose proof (createBlock_fresh _ s W B) as C.
  destruct (createBlock (i / ps_of s)%Z s) as [c s1]. destruct C as (-> & P & b & L & Hb & Pn & Rw).
  pose proof (blockGetRow_spec (nextObj s) i s1 b Hb) as G.
  destruct (blockGetRow (nextObj s) i s1) as [r s'] eqn:Eg. destruct G as (R&Bl&_&H).
  split.
  - rewrite R. unfold slotAt, getStartRow, ps_of. rewrite P. fold (ps_of s). rewrite Pn, Rw.
    assert (Em : (i - i / ps_of s * ps_of s = i mod ps_of s)%Z) by (rewrite Z.mod_eq by lia; ring).
    pose proof (Z.mod_pos_bound i (ps_of s) Hps) as Hb2.
    rewrite Em. rewrite (proj2 (Z.ltb_ge _ _)) by lia. apply lookup_repeat_lt. lia.
  - exists (set_lastAccessed b (lastAccessedSequence s1)). rewrite Bl. auto.
Qed.

Lemma getRow_missing_page_witness :
  wf (c2State (Some 2%Z) true false 4) /\ (0 < ps_of (c2State (Some 2%Z) true false 4))%Z /\
  blockAt (c2State (Some 2%Z) true false 4) (5 / ps_of (c2State (Some 2%Z) true false 4))%Z = None /\
  let '(r, s') := getRow 5 false (c2State (Some 2%Z) true false 4) in
  r = Some Blank /\
  exists b, lookupBlock (5 / ps_of (c2State (Some 2%Z) true false 4))%Z (blocks s') =
              Some (nextObj (c2State (Some 2%Z) true false 4)) /\
    heap s' !! nextObj (c2State (Some 2%Z) true false 4) = Some b /\
    rowNodes b = repeat Blank (Z.to_nat (ps_of (c2State (Some 2%Z) true false 4))).
Proof.
  split; [solve_wf|]. split; [reflexivity|]. split; [vm_compute; reflexivity|].
  apply getRow_missing_page; [solve_wf|reflexivity|vm_compute; reflexivity].
Defined.
